(** * theCINE backend: the movie aggregation pipeline

    A shallow embedding of [backend/movieInfo/movieBuilder.js] and
    [backend/movieInfo/fetchYouTubeInfo.js].

    - JavaScript strings are byte strings ([string]); numbers that the code
      only copies are rationals ([Q]); object literals are finite maps from
      property names to values ([gmap string JsValue]).
    - An [async] function is a resumption ([Async]): it runs until it awaits
      an external call, and is resumed with the call's answer; the answer
      of [axios.get] is [response.data], a string or, when the body was
      JSON, the value it parses to.  The network
      decides the order in which outstanding calls are answered, so every
      statement about a batch quantifies over all such orders.
    - [Array.prototype.sort] with the comparator [() => 0.5 - Math.random()]
      is a comparison plan ([SortPlan]) supplied by the host engine
      ([SortEngine]); the values of [Math.random()] come from a tape.
    - [better-sqlite3] calls are synchronous and pass the store explicitly. *)

From Stdlib Require Import Ascii String QArith.
From stdpp Require Import gmap strings list fin_maps sorting.

Close Scope Q_scope.
Open Scope Z_scope.
Open Scope nat_scope.

(** ** Values and records *)

Inductive Error : Type :=
| NetworkError (msg : string)
| SqliteError (msg : string)
| TypeError (msg : string).

(** What an awaited promise settles to. *)
Inductive Settled (A : Type) : Type :=
| Fulfilled (v : A)
| Rejected (e : Error).
Arguments Fulfilled {A} v.
Arguments Rejected {A} e.

#[warnings="-register-all"]
Inductive JsValue : Type :=
| JNull
| JBool (b : bool)
| JNumber (n : Q)
| JString (s : string)
| JArray (items : list JsValue)
| JObject (fields : list (string * JsValue)).

(** A raw record of the movie catalog API. *)
Record CatalogRecord : Type := {
  id : Z;
  title : string;
  release_date : string;
  vote_average : Q;
  backdrop_path : string;
}.

(** A row of the table [movies] of the local store. *)
Record PopularityRow : Type := {
  row_id : Z;
  popularity : Q;
  row_title : string;
}.

(** The object returned for one movie. *)
Abbreviation EnrichedMovie := (gmap string JsValue).

(** ** Text: percent-encoding and the video-id pattern *)

Definition dquote : ascii := ascii_of_nat 34.

Definition in_range (lo hi : nat) (c : ascii) : bool :=
  (lo <=? nat_of_ascii c) && (nat_of_ascii c <=? hi).

Definition is_alnum (c : ascii) : bool :=
  in_range 97 122 c || in_range 65 90 c || in_range 48 57 c.

(** The character class [[a-zA-Z0-9_-]]. *)
Definition is_id_char (c : ascii) : bool :=
  is_alnum c || bool_decide (c = "_"%char) || bool_decide (c = "-"%char).

(** Characters that [encodeURIComponent] leaves as they are. *)
Definition is_unreserved (c : ascii) : bool :=
  is_alnum c ||
  bool_decide (c ∈ ["-"; "_"; "."; "!"; "~"; "*"; "'"; "("; ")"]%char).

Definition hex_digit (n : nat) : ascii :=
  if n <? 10 then ascii_of_nat (48 + n) else ascii_of_nat (55 + n).

Definition percent_encode (c : ascii) : list ascii :=
  if is_unreserved c then [c]
  else ["%"%char; hex_digit (nat_of_ascii c / 16); hex_digit (nat_of_ascii c mod 16)].

Definition encodeURIComponent (s : string) : string :=
  string_of_list_ascii (list_ascii_of_string s ≫= percent_encode).

(** The fixed field marker of the pattern, a quoted [videoId] key followed
    by a colon and the opening quote of the value. *)
Definition marker : list ascii :=
  dquote :: list_ascii_of_string "videoId" ++ [dquote; ":"%char; dquote].

Fixpoint strip_prefix (p s : list ascii) : option (list ascii) :=
  match p, s with
  | [], _ => Some s
  | a :: p', b :: s' => if decide (a = b) then strip_prefix p' s' else None
  | _ :: _, [] => None
  end.

(** The pattern anchored at the head of [s]: the marker, eleven characters
    of the class, a closing quote.  The result is the captured group. *)
Definition match_here (s : list ascii) : option (list ascii) :=
  match strip_prefix marker s with
  | None => None
  | Some rest =>
      let tok := take 11 rest in
      if bool_decide (length tok = 11) && forallb is_id_char tok
         && bool_decide (drop 11 rest !! 0 = Some dquote)
      then Some tok else None
  end.

(** [html.match(/.../)]: the leftmost position at which the pattern matches. *)
Fixpoint regex_exec (s : list ascii) : option (list ascii) :=
  match match_here s with
  | Some tok => Some tok
  | None => match s with
            | [] => None
            | _ :: s' => regex_exec s'
            end
  end.

Definition match_videoId (html : string) : option string :=
  string_of_list_ascii <$> regex_exec (list_ascii_of_string html).

(** [html.match(/.../)] where [html] is [response.data]: only a string has
    the method [match]. *)
Definition html_match (html : JsValue) : Settled (option string) :=
  match html with
  | JString text => Fulfilled (match_videoId text)
  | JNull => Rejected (TypeError "Cannot read properties of null (reading 'match')")
  | _ => Rejected (TypeError "html.match is not a function")
  end.

(** What the pattern means: the page contains the marker, an eleven
    character token of the class and a closing quote, in this order. *)
Definition has_videoId (html : string) : Prop :=
  ∃ pre tok post,
    list_ascii_of_string html = pre ++ marker ++ tok ++ dquote :: post ∧
    length tok = 11 ∧ Forall (λ c, is_id_char c = true) tok.

(** ** Asynchronous functions *)

(** The external calls of the pipeline: [axios.get] of the scraper and the
    functions of the catalog client.  The catalog client
    ([fetchMovieInfo.js]) is not among the sources: its functions are calls
    that the environment answers. *)
Inductive Request : Type :=
| AxiosGet (url : string)
| GetMovieById (tmdbId : Z)
| GetMovieByTitle (name : string)
| GetStreamingProvider (movieId : Z)
| GetTrendingMovies
| GetTopRatedMovies.

(** The value a call is fulfilled with.  For [axios.get] it is
    [response.data]: the body as a string, or, when the body is JSON, the
    value the body parses to (axios parses such a body by default). *)
Definition Resp (q : Request) : Type :=
  match q with
  | AxiosGet _ => JsValue
  | GetMovieById _ | GetMovieByTitle _ => CatalogRecord
  | GetStreamingProvider _ => JsValue
  | GetTrendingMovies | GetTopRatedMovies => list CatalogRecord
  end.

(** The body of an [async] function.  [Await q k] has issued the call [q]
    and resumes with [k] when it is fulfilled; a rejected call is thrown at
    the [await], and no function of the module catches.  [AwaitAll ts k] is
    [await Promise.all(ts)]. *)
#[warnings="-register-all"]
Inductive Async (R : Type) : Type :=
| Return (r : R)
| Throw (e : Error)
| Await (q : Request) (k : Resp q → Async R)
| AwaitAll {X : Type} (ts : list (Async X)) (k : list X → Async R).
Arguments Return {R} r.
Arguments Throw {R} e.
Arguments Await {R} q k.
Arguments AwaitAll {R X} ts k.

(** [await a] of the promise of another async function, then [f]. *)
Fixpoint bind {A B : Type} (a : Async A) (f : A → Async B) : Async B :=
  match a with
  | Return r => f r
  | Throw e => Throw e
  | Await q k => Await q (λ x, bind (k x) f)
  | AwaitAll ts k => AwaitAll ts (λ vs, bind (k vs) f)
  end.

Notation "'let_await' x := a 'in' b" := (bind a (λ x, b))
  (at level 10, x name, a at level 100, b at level 200, only parsing).

Definition call (q : Request) : Async (Resp q) := Await q Return.

(** The first promise of the list that is already rejected. *)
Fixpoint first_rejection {X : Type} (ts : list (Async X)) : option Error :=
  match ts with
  | [] => None
  | Throw e :: _ => Some e
  | _ :: ts' => first_rejection ts'
  end.

(** The values of the list when every promise is fulfilled. *)
Fixpoint all_fulfilled {X : Type} (ts : list (Async X)) : option (list X) :=
  match ts with
  | [] => Some []
  | Return v :: ts' => (v ::.) <$> all_fulfilled ts'
  | _ :: _ => None
  end.

(** [await Promise.all(ts)]: rejected as soon as one promise is rejected,
    fulfilled with the values in the order of [ts] when all are fulfilled,
    suspended otherwise. *)
Definition await_all {X R : Type} (ts : list (Async X)) (k : list X → Async R)
  : Async R :=
  match first_rejection ts with
  | Some e => Throw e
  | None => match all_fulfilled ts with
            | Some vs => k vs
            | None => AwaitAll ts k
            end
  end.

(** The calls that are outstanding, oldest task first. *)
Fixpoint pending {R : Type} (a : Async R) : list Request :=
  match a with
  | Return _ | Throw _ => []
  | Await q _ => [q]
  | AwaitAll ts _ => concat (map pending ts)
  end.

Section settle_in.
Context {T : Type} (len : T → nat) (f : nat → T → T).

(** Apply [f] to the element of [ts] that owns the [i]-th slot, where the
    element [t] owns [len t] consecutive slots. *)
Fixpoint settle_in (i : nat) (ts : list T) : list T :=
  match ts with
  | [] => []
  | t :: ts' =>
      if decide (i < len t) then f i t :: ts'
      else t :: settle_in (i - len t) ts'
  end.
End settle_in.

(** The environment of one step: how each call would be answered now. *)
Definition Env : Type := ∀ q : Request, Settled (Resp q).

(** The [i]-th outstanding call is answered and its task resumed. *)
Fixpoint settle {R : Type} (env : Env) (i : nat) (a : Async R) : Async R :=
  match a with
  | Return r => Return r
  | Throw e => Throw e
  | Await q k =>
      match env q with
      | Fulfilled x => k x
      | Rejected e => Throw e
      end
  | AwaitAll ts k =>
      await_all (settle_in (λ t, length (pending t)) (settle env) i ts) k
  end.

(** One step of the event loop; the scheduler's choice [i] is taken modulo
    the number of outstanding calls. *)
Definition step {R : Type} (env : Env) (i : nat) (a : Async R) : Async R :=
  settle env (i mod length (pending a)) a.

Definition outcome {R : Type} (a : Async R) : option (Settled R) :=
  match a with
  | Return r => Some (Fulfilled r)
  | Throw e => Some (Rejected e)
  | _ => None
  end.

Definition Schedule : Type := list (nat * Env).

Definition run {R : Type} (sched : Schedule) (a : Async R) : Async R :=
  foldl (λ a s, step s.2 s.1 a) a sched.

(** ** [Array.prototype.sort] under a random comparator *)

Inductive Sign : Type := Negative | Zero | Positive.

Definition sign_of (v : Q) : Sign :=
  match (v ?= 0)%Q with
  | Lt => Negative
  | Eq => Zero
  | Gt => Positive
  end.

(** The comparisons an engine makes on one array: it calls the comparator
    on two elements, looks at the sign of the answer and goes on, until it
    has the sorted array. *)
Inductive SortPlan (A : Type) : Type :=
| Sorted (out : list A)
| Compare (a b : A) (k : Sign → SortPlan A).
Arguments Sorted {A} out.
Arguments Compare {A} a b k.

Inductive Leaf {A : Type} : SortPlan A → list A → Prop :=
| leaf_here out : Leaf (Sorted out) out
| leaf_below a b k s out : Leaf (k s) out → Leaf (Compare a b k) out.

(** The order in which [sort] compares is implementation-defined; whatever
    the comparator answers, the result holds the elements of the array. *)
Record SortEngine : Type := {
  plan : ∀ A : Type, list A → SortPlan A;
  plan_permutes : ∀ (A : Type) (l out : list A), Leaf (plan A l) out → l ≡ₚ out;
}.

(** Synchronous code that calls [Math.random()]: the state is the number of
    values already taken from the tape. *)
Definition Rand (A : Type) : Type := nat → A * nat.

Definition rand_ret {A : Type} (x : A) : Rand A := λ n, (x, n).

Definition rand_bind {A B : Type} (m : Rand A) (f : A → Rand B) : Rand B :=
  λ n, let (x, n') := m n in f x n'.

Notation "x ←$ m ; f" := (rand_bind m (λ x, f))
  (at level 20, m at level 100, f at level 200, only parsing).

Definition eval_rand {A : Type} (m : Rand A) : A := (m 0).1.

Fixpoint run_plan {A : Type} (p : SortPlan A) (comparefn : A → A → Rand Q)
  : Rand (list A) :=
  match p with
  | Sorted out => rand_ret out
  | Compare a b k => v ←$ comparefn a b; run_plan (k (sign_of v)) comparefn
  end.

(** A store of the table [movies]: [movies = None] when the table cannot
    be read, so that the query throws. *)
Record Store : Type := {
  movies : option (list PopularityRow);
  can_open : bool;
  open_connections : nat;
}.

Definition by_popularity_desc (r1 r2 : PopularityRow) : Prop :=
  (popularity r2 <= popularity r1)%Q.

#[global] Instance by_popularity_desc_dec r1 r2 : Decision (by_popularity_desc r1 r2).
Proof. unfold by_popularity_desc, Qle. apply _. Defined.

(** [new Database(path)] *)
Definition new_Database (st : Store) : Settled Store :=
  if can_open st
  then Fulfilled {| movies := movies st; can_open := can_open st;
                    open_connections := S (open_connections st) |}
  else Rejected (SqliteError "unable to open database file").

(** [db.prepare("SELECT * FROM movies ORDER BY popularity DESC LIMIT 1000").all()] *)
Definition select_top_1000 (st : Store) : Settled (list PopularityRow) :=
  match movies st with
  | Some rows => Fulfilled (take 1000 (merge_sort by_popularity_desc rows))
  | None => Rejected (SqliteError "no such table: movies")
  end.

(** [db.close()] *)
Definition db_close (st : Store) : Store :=
  {| movies := movies st; can_open := can_open st;
     open_connections := pred (open_connections st) |}.

(** ** The pipeline *)

(** The search URL built from the query: the fixed endpoint and the
    percent-encoded query. *)
Definition search_url (searchQuery : string) : string :=
  "https://www.youtube.com/results?search_query=" +:+ encodeURIComponent searchQuery.
Arguments search_url : simpl never.

Definition getYoutubeId (searchQuery : string) : Async JsValue :=
  let searchUrl := search_url searchQuery in
  let_await html := call (AxiosGet searchUrl) in
  match html_match html with
  | Rejected e => Throw e
  | Fulfilled None => Return JNull
  | Fulfilled (Some videoId) => Return (JString videoId)
  end.

Definition getStreamingProvider (movieId : Z) : Async JsValue :=
  call (GetStreamingProvider movieId).

Definition extractMovieInfo (movie : CatalogRecord) : EnrichedMovie :=
  <["backdrop_path" := JString (backdrop_path movie)]>
  (<["vote_average" := JNumber (vote_average movie)]>
  (<["release_date" := JString (release_date movie)]>
  (<["title" := JString (title movie)]>
  (<["id" := JNumber (inject_Z (id movie))]> ∅)))).

Definition buildMovieObject (movie : CatalogRecord) : Async EnrichedMovie :=
  let_await youtubeId := getYoutubeId (title movie +:+ " trailer") in
  let_await streamingProvider := getStreamingProvider (id movie) in
  Return (<["streamingProvider" := streamingProvider]>
          (<["youtubeId" := youtubeId]> (extractMovieInfo movie))).

Definition createMovieObjectFromID (tmdbId : Z) : Async EnrichedMovie :=
  let_await movie := call (GetMovieById tmdbId) in
  buildMovieObject movie.

Definition createMovieObjectFromName (name : string) : Async EnrichedMovie :=
  let_await movie := call (GetMovieByTitle name) in
  buildMovieObject movie.

Section Pipeline.
(** The engine that runs the module and the values [Math.random()]
    returns during one synchronous block. *)
Variable E : SortEngine.
Variable tape : nat → Q.

Definition Math_random : Rand Q := λ n, (tape n, S n).

(** [() => 0.5 - Math.random()] *)
Definition random_comparator {A : Type} (_ _ : A) : Rand Q :=
  r ←$ Math_random; rand_ret ((1 # 2) - r)%Q.

Definition Array_sort {A : Type} (comparefn : A → A → Rand Q) (array : list A)
  : Rand (list A) :=
  run_plan (plan E A array) comparefn.

Definition getRandomItems {A : Type} (array : list A) (count : nat) : Rand (list A) :=
  shuffled ←$ Array_sort random_comparator array;
  rand_ret (take count shuffled).

Definition shuffleArray {A : Type} (array : list A) : Rand (list A) :=
  Array_sort random_comparator array.

Definition landingPageMovies : Async (list EnrichedMovie) :=
  let_await trending := call GetTrendingMovies in
  let_await topRated := call GetTopRatedMovies in
  let shuffled := eval_rand (
    trendingSample ←$ getRandomItems trending 8;
    topRatedSample ←$ getRandomItems topRated 2;
    let combined := trendingSample ++ topRatedSample in
    shuffleArray combined) in
  await_all (map buildMovieObject shuffled) Return.

(** The synchronous part runs on the store at once; what is left is the
    promise of the enriched movies. *)
Definition getRandomPopularMovies (st : Store)
  : Store * Async (list EnrichedMovie) :=
  match new_Database st with
  | Rejected e => (st, Throw e)
  | Fulfilled db =>
      match select_top_1000 db with
      | Rejected e => (db, Throw e)
      | Fulfilled topMovies =>
          let shuffled := eval_rand (Array_sort random_comparator topMovies) in
          let randomIds := map row_id (take 10 shuffled) in
          (db_close db,
           await_all (map createMovieObjectFromID randomIds) Return)
      end
  end.
End Pipeline.

(** ** An engine: insertion sort *)

(** Insert [x] into [sorted], from the left, and go on with [k]. *)
Fixpoint insert_plan {A : Type} (x : A) (sorted : list A)
    (k : list A → SortPlan A) : SortPlan A :=
  match sorted with
  | [] => k [x]
  | y :: rest =>
      Compare x y (λ s,
        match s with
        | Negative => k (x :: y :: rest)
        | _ => insert_plan x rest (λ r, k (y :: r))
        end)
  end.

Fixpoint isort_plan {A : Type} (todo sorted : list A) : SortPlan A :=
  match todo with
  | [] => Sorted sorted
  | x :: todo' => insert_plan x sorted (λ sorted', isort_plan todo' sorted')
  end.

Lemma insert_plan_leaf {A : Type} (x : A) sorted k out :
  Leaf (insert_plan x sorted k) out →
  ∃ r, r ≡ₚ x :: sorted ∧ Leaf (k r) out.
Proof.
  revert k. induction sorted as [|y rest IH]; intros k H; simpl in H.
  - by exists [x].
  - inversion H as [|a b k' s out' Hs]; subst. destruct s.
    + by exists (x :: y :: rest).
    + apply IH in Hs as (r & Hr & Hl). exists (y :: r). split; [|done].
      rewrite Hr. apply Permutation_swap.
    + apply IH in Hs as (r & Hr & Hl). exists (y :: r). split; [|done].
      rewrite Hr. apply Permutation_swap.
Qed.

Lemma isort_plan_leaf {A : Type} (todo sorted out : list A) :
  Leaf (isort_plan todo sorted) out → todo ++ sorted ≡ₚ out.
Proof.
  revert sorted. induction todo as [|x todo IH]; intros sorted H; simpl in H.
  - by inversion H.
  - apply insert_plan_leaf in H as (r & Hr & Hl). apply IH in Hl.
    rewrite <- Hl, Hr. simpl. by rewrite Permutation_middle.
Qed.

Definition insertion_sort : SortEngine :=
  {| plan := λ A l, isort_plan l [];
     plan_permutes := λ A l out H,
       eq_ind (l ++ []) (λ l', l' ≡ₚ out) (isort_plan_leaf l [] out H) l (app_nil_r l) |}.

(** ** Reasoning about every order of answers *)

(** [Settles OK P n a]: whatever calls are answered next and in whatever
    order, with answers allowed by [OK], the computation [a] always has a
    call to wait for until it settles, it settles within [n] steps, and
    what it settles to satisfies [P]. *)
Fixpoint Settles {R : Type} (OK : Env → Prop) (P : Settled R → Prop)
    (n : nat) (a : Async R) : Prop :=
  match outcome a with
  | Some r => P r
  | None =>
      match n with
      | 0 => False
      | S n' => pending a ≠ [] ∧ ∀ i env, OK env → Settles OK P n' (step env i a)
      end
  end.

Definition answers (OK : Env → Prop) (sched : Schedule) : Prop :=
  Forall (λ s, OK s.2) sched.

Section Settles.
Context {R : Type} (OK : Env → Prop).
Implicit Types (P Q : Settled R → Prop) (a : Async R).

Lemma step_settled env i a r : outcome a = Some r → step env i a = a.
Proof. by destruct a. Qed.

Lemma run_settled sched a r : outcome a = Some r → run sched a = a.
Proof.
  intros H. induction sched as [|s sched IH]; [done|].
  unfold run in *. simpl. by rewrite (step_settled _ _ _ r).
Qed.

Lemma Settles_mono P n n' a : n ≤ n' → Settles OK P n a → Settles OK P n' a.
Proof.
  revert n' a. induction n as [|n IH]; intros n' a Hle H.
  - destruct n'; simpl in *; destruct (outcome a); done.
  - destruct n' as [|n']; [lia|]. simpl in *.
    destruct (outcome a); [done|]. destruct H as [Hp H].
    split; [done|]. intros i env Henv. apply IH; [lia|]. by apply H.
Qed.

Lemma Settles_weaken P Q n a :
  (∀ r, P r → Q r) → Settles OK P n a → Settles OK Q n a.
Proof.
  intros HPQ. revert a. induction n as [|n IH]; intros a H; simpl in *.
  - destruct (outcome a); [auto|done].
  - destruct (outcome a); [auto|]. destruct H as [Hp H]. split; [done|].
    intros i env Henv. apply IH. by apply H.
Qed.

(** What a run that has settled settled to. *)
Lemma Settles_sound P n a sched r :
  Settles OK P n a → answers OK sched →
  outcome (run sched a) = Some r → P r.
Proof.
  revert n a. induction sched as [|[i env] sched IH]; intros n a H Hs Hr.
  - simpl in Hr. destruct n; simpl in H; rewrite Hr in H; done.
  - destruct (outcome a) as [r'|] eqn:Ha.
    + rewrite (run_settled _ _ r') in Hr by done.
      destruct n; simpl in H; rewrite Ha in H; congruence.
    + destruct n as [|n]; simpl in H; rewrite Ha in H; [done|].
      destruct H as [_ H]. inversion Hs; subst.
      eapply (IH n (step env i a)); eauto.
Qed.

(** A run of [n] steps or more has settled. *)
Lemma Settles_total P n a sched :
  Settles OK P n a → answers OK sched → n ≤ length sched →
  ∃ r, outcome (run sched a) = Some r ∧ P r.
Proof.
  revert n a. induction sched as [|[i env] sched IH]; intros n a H Hs Hn.
  - destruct n; [|simpl in Hn; lia]. simpl in *.
    destruct (outcome a) as [r|]; [by exists r|done].
  - destruct (outcome a) as [r'|] eqn:Ha.
    + rewrite (run_settled _ _ r') by done. exists r'. split; [done|].
      destruct n; simpl in H; rewrite Ha in H; done.
    + destruct n as [|n]; simpl in H; rewrite Ha in H; [done|].
      destruct H as [_ H]. inversion Hs; subst. simpl in Hn.
      apply (IH n (step env i a)); auto with lia.
Qed.
End Settles.

(** The tasks of a batch with their postconditions and a common budget of
    steps. *)
Inductive AllSettle {X : Type} (OK : Env → Prop)
  : list (Settled X → Prop) → nat → list (Async X) → Prop :=
| all_settle_nil N : AllSettle OK [] N []
| all_settle_cons P Ps n N M t ts :
    Settles OK P n t → AllSettle OK Ps N ts → n + N ≤ M →
    AllSettle OK (P :: Ps) M (t :: ts).

Section Join.
Context {X : Type} (OK : Env → Prop).
Implicit Types (Ps : list (Settled X → Prop)) (ts : list (Async X)).

Lemma AllSettle_mono Ps N M ts : N ≤ M → AllSettle OK Ps N ts → AllSettle OK Ps M ts.
Proof.
  intros Hle H. destruct H; [constructor|].
  econstructor; eauto with lia.
Qed.

Lemma AllSettle_rejection Ps N ts e :
  AllSettle OK Ps N ts → first_rejection ts = Some e →
  ∃ P, P ∈ Ps ∧ P (Rejected e).
Proof.
  induction 1 as [|P Ps n N M t ts Ht Hts IH Hle]; intros He; [done|].
  destruct t as [v|e'| |]; simpl in He.
  - destruct (IH He) as (P' & ? & ?). exists P'. split; [by right|done].
  - injection He as ->. exists P. split; [by left|].
    destruct n; exact Ht.
  - destruct (IH He) as (P' & ? & ?). exists P'. split; [by right|done].
  - destruct (IH He) as (P' & ? & ?). exists P'. split; [by right|done].
Qed.

Lemma AllSettle_fulfilled Ps N ts vs :
  AllSettle OK Ps N ts → all_fulfilled ts = Some vs →
  Forall2 (λ P v, P (Fulfilled v)) Ps vs.
Proof.
  intros H. revert vs.
  induction H as [|P Ps n N M t ts Ht Hts IH Hle]; intros vs Hv.
  - injection Hv as <-. constructor.
  - destruct t as [v|e'| |]; simpl in Hv; try done.
    destruct (all_fulfilled ts) as [vs'|]; [|done]. injection Hv as <-.
    constructor; [|by apply IH]. destruct n; exact Ht.
Qed.

Lemma AllSettle_pending Ps N ts :
  AllSettle OK Ps N ts → first_rejection ts = None → all_fulfilled ts = None →
  concat (map pending ts) ≠ [] ∧ 0 < N.
Proof.
  induction 1 as [|P Ps n N M t ts Ht Hts IH Hle]; intros Hr Hf; [done|].
  destruct t as [v|e'|q k|Y us k]; simpl in *; try done.
  - destruct IH as [? ?]; [done|by destruct (all_fulfilled ts)|].
    split; [done|lia].
  - destruct n; simpl in Ht; [done|]. split; [done|lia].
  - destruct n; simpl in Ht; [done|]. destruct Ht as [Hp _].
    simpl in Hp. split; [|lia]. intros [Hnil _]%app_eq_nil. done.
Qed.

(** Answering one outstanding call of the batch uses up one step of the
    budget of the task that owns it. *)
Lemma AllSettle_step Ps N ts i env :
  AllSettle OK Ps N ts → OK env → i < length (concat (map pending ts)) →
  ∃ N', N = S N' ∧
    AllSettle OK Ps N' (settle_in (λ t, length (pending t)) (settle env) i ts).
Proof.
  intros H Henv. revert i.
  induction H as [|P Ps n N M t ts Ht Hts IH Hle]; intros i Hi.
  - simpl in Hi. lia.
  - simpl in Hi. rewrite length_app in Hi. simpl.
    destruct (decide (i < length (pending t))) as [Hlt|Hge].
    + destruct (outcome t) eqn:Ho; [destruct t; simpl in *; done || lia|].
      destruct n as [|n]; simpl in Ht; rewrite Ho in Ht; [done|].
      destruct Ht as [_ Ht]. specialize (Ht i env Henv).
      unfold step in Ht. rewrite Nat.mod_small in Ht by done.
      exists (n + N + (M - (S n + N))). split; [lia|].
      econstructor; [exact Ht|exact Hts|lia].
    + destruct (IH (i - length (pending t))) as (N' & -> & H'); [lia|].
      exists (n + N' + (M - (n + S N'))). split; [lia|].
      econstructor; [exact Ht|exact H'|lia].
Qed.

(** [await Promise.all(ts)] settles when every task does. *)
Lemma Settles_await_all {R : Type} (Q : Settled R → Prop) Ps N c ts
    (k : list X → Async R) :
  AllSettle OK Ps N ts →
  (∀ vs, Forall2 (λ P v, P (Fulfilled v)) Ps vs → Settles OK Q c (k vs)) →
  (∀ P e, P ∈ Ps → P (Rejected e) → Q (Rejected e)) →
  Settles OK Q (N + c) (await_all ts k).
Proof.
  intros H Hk He. revert ts H.
  induction N as [|N IH]; intros ts H; unfold await_all.
  - destruct (first_rejection ts) as [e|] eqn:Hr.
    { destruct (AllSettle_rejection _ _ _ _ H Hr) as (P & ? & ?).
      simpl. destruct c; simpl; eauto. }
    destruct (all_fulfilled ts) as [vs|] eqn:Hf.
    { apply Hk. eapply AllSettle_fulfilled; eauto. }
    destruct (AllSettle_pending _ _ _ H Hr Hf) as [_ ?]. lia.
  - destruct (first_rejection ts) as [e|] eqn:Hr.
    { destruct (AllSettle_rejection _ _ _ _ H Hr) as (P & ? & ?).
      simpl. eauto. }
    destruct (all_fulfilled ts) as [vs|] eqn:Hf.
    { eapply Settles_mono; [|apply Hk; eapply AllSettle_fulfilled; eauto]. lia. }
    destruct (AllSettle_pending _ _ _ H Hr Hf) as [Hp _].
    simpl. split; [done|]. intros i env Henv. unfold step. simpl.
    destruct (AllSettle_step _ _ _ (i mod length (concat (map pending ts))) env H Henv)
      as (N' & [= <-] & H').
    { apply Nat.mod_upper_bound. by destruct (concat (map pending ts)). }
    by apply IH.
Qed.
End Join.

(** ** The video-id pattern *)

Lemma strip_prefix_Some p s rest : strip_prefix p s = Some rest ↔ s = p ++ rest.
Proof.
  revert s. induction p as [|a p IH]; intros s; simpl.
  - split; congruence.
  - destruct s as [|b s]; [done|]. destruct (decide (a = b)) as [->|Hne].
    + rewrite IH. split; congruence.
    + split; [done|]. congruence.
Qed.

Lemma match_here_Some s tok :
  match_here s = Some tok ↔
  ∃ post, s = marker ++ tok ++ dquote :: post ∧
          length tok = 11 ∧ Forall (λ c, is_id_char c = true) tok.
Proof.
  unfold match_here. split.
  - destruct (strip_prefix marker s) as [rest|] eqn:Hs; [|done].
    apply strip_prefix_Some in Hs as ->.
    destruct (bool_decide _ && _ && _) eqn:Hb; [|done]. intros [= <-].
    apply andb_prop in Hb as [[Hlen Hall]%andb_prop Hq].
    apply bool_decide_eq_true in Hlen, Hq.
    destruct (drop 11 rest) as [|c post] eqn:Hd; [done|].
    injection Hq as ->. exists post. split_and!; [|done|].
    + by rewrite <- Hd, take_drop.
    + apply Forall_forall. intros c Hc. apply list_elem_of_In in Hc.
      by apply (proj1 (forallb_forall _ _) Hall).
  - intros (post & -> & Hlen & Hall).
    rewrite (proj2 (strip_prefix_Some _ _ (tok ++ dquote :: post))) by done.
    rewrite take_app_length', drop_app_length' by done.
    rewrite bool_decide_true by done. simpl.
    rewrite (proj2 (forallb_forall _ _)); [done|].
    intros c Hc. apply list_elem_of_In in Hc.
    by apply (proj1 (Forall_forall _ _) Hall).
Qed.

(** The scan finds a token exactly when the page holds one. *)
Lemma regex_exec_Some s tok :
  regex_exec s = Some tok →
  ∃ pre post, s = pre ++ marker ++ tok ++ dquote :: post ∧
              length tok = 11 ∧ Forall (λ c, is_id_char c = true) tok.
Proof.
  induction s as [|c s IH]; simpl.
  - done.
  - destruct (match_here (c :: s)) eqn:Hm.
    + intros [= ->]. apply match_here_Some in Hm as (post & ? & ? & ?).
      by exists [], post.
    + intros (pre & post & -> & ? & ?)%IH. by exists (c :: pre), post.
Qed.

Lemma regex_exec_cons c s :
  regex_exec (c :: s) =
  match match_here (c :: s) with Some tok => Some tok | None => regex_exec s end.
Proof. done. Qed.

Lemma regex_exec_None s pre tok post :
  regex_exec s = None → length tok = 11 → Forall (λ c, is_id_char c = true) tok →
  s ≠ pre ++ marker ++ tok ++ dquote :: post.
Proof.
  revert s. induction pre as [|c pre IH]; intros s Hn Hlen Hall ->.
  - assert (match_here (marker ++ tok ++ dquote :: post) = Some tok) as Hm
      by (apply match_here_Some; eauto).
    rewrite app_nil_l in Hn. destruct (marker ++ tok ++ dquote :: post);
      [by vm_compute in Hm|]. rewrite regex_exec_cons, Hm in Hn. done.
  - rewrite <- app_comm_cons, regex_exec_cons in Hn.
    destruct (match_here (c :: pre ++ marker ++ tok ++ dquote :: post)); [done|].
    by eapply IH.
Qed.

Lemma match_videoId_None html : match_videoId html = None ↔ ¬ has_videoId html.
Proof.
  unfold match_videoId, has_videoId. split.
  - intros Hn (pre & tok & post & Heq & Hlen & Hall).
    apply fmap_None in Hn. by eapply regex_exec_None.
  - intros Hno. destruct (regex_exec _) as [tok|] eqn:Hr; [|done].
    destruct Hno. apply regex_exec_Some in Hr as (pre & post & ? & ? & ?).
    by exists pre, tok, post.
Qed.

(** ** One enrichment *)

(** The two calls of [buildMovieObject]. *)
Definition trailer_request (movie : CatalogRecord) : Request :=
  AxiosGet (search_url (title movie +:+ " trailer")).

Definition provider_request (movie : CatalogRecord) : Request :=
  GetStreamingProvider (id movie).

(** The value of [youtubeId] for a page of text. *)
Definition videoId_of (html : string) : JsValue :=
  match match_videoId html with
  | None => JNull
  | Some videoId => JString videoId
  end.

(** What [getYoutubeId] makes of [response.data]. *)
Definition resolved (html : JsValue) : Settled JsValue :=
  match html_match html with
  | Rejected e => Rejected e
  | Fulfilled None => Fulfilled JNull
  | Fulfilled (Some videoId) => Fulfilled (JString videoId)
  end.

Lemma resolved_text html : resolved (JString html) = Fulfilled (videoId_of html).
Proof. unfold resolved, videoId_of. simpl. by destruct (match_videoId html). Qed.

Lemma resolved_Fulfilled data y :
  resolved data = Fulfilled y → ∃ html, data = JString html ∧ y = videoId_of html.
Proof.
  destruct data as [| | |html| |]; try done.
  rewrite resolved_text. intros [= <-]. by exists html.
Qed.

Definition enriched (movie : CatalogRecord) (youtubeId streamingProvider : JsValue)
  : EnrichedMovie :=
  <["streamingProvider" := streamingProvider]>
    (<["youtubeId" := youtubeId]> (extractMovieInfo movie)).

(** After [getYoutubeId] has returned, [buildMovieObject] waits for the
    provider. *)
Definition awaiting_provider (movie : CatalogRecord) (youtubeId : JsValue)
  : Async EnrichedMovie :=
  Await (provider_request movie) (λ sp, Return (enriched movie youtubeId sp)).

Lemma buildMovieObject_pending movie :
  pending (buildMovieObject movie) = [trailer_request movie].
Proof. done. Qed.

Lemma buildMovieObject_step env i movie :
  step env i (buildMovieObject movie) =
  match env (trailer_request movie) with
  | Fulfilled html =>
      match resolved html with
      | Fulfilled youtubeId => awaiting_provider movie youtubeId
      | Rejected e => Throw e
      end
  | Rejected e => Throw e
  end.
Proof.
  unfold step. simpl. fold (trailer_request movie).
  destruct (env (trailer_request movie)) as [html|e]; [|done].
  unfold awaiting_provider, resolved.
  by destruct (html_match html) as [[videoId|]|e].
Qed.

Lemma awaiting_provider_step env i movie youtubeId :
  step env i (awaiting_provider movie youtubeId) =
  match env (provider_request movie) with
  | Fulfilled sp => Return (enriched movie youtubeId sp)
  | Rejected e => Throw e
  end.
Proof. done. Qed.

(** What an enrichment of [movie] settles to. *)
Definition built_from (movie : CatalogRecord) (r : Settled EnrichedMovie) : Prop :=
  match r with
  | Fulfilled obj => ∃ youtubeId sp, obj = enriched movie youtubeId sp
  | Rejected _ => True
  end.

Lemma buildMovieObject_Settles OK movie :
  Settles OK (built_from movie) 2 (buildMovieObject movie).
Proof.
  split; [done|]. intros i env _. rewrite buildMovieObject_step.
  destruct (env _) as [html|e]; [|done].
  destruct (resolved html) as [youtubeId|e]; [|done].
  split; [done|]. intros i' env' _. rewrite awaiting_provider_step.
  destruct (env' _) as [sp|e]; [|done]. simpl. eauto.
Qed.

Lemma enriched_id movie y sp :
  enriched movie y sp !! "id" = Some (JNumber (inject_Z (id movie))).
Proof. done. Qed.

Lemma enriched_youtubeId movie y sp : enriched movie y sp !! "youtubeId" = Some y.
Proof. done. Qed.

Lemma enriched_streamingProvider movie y sp :
  enriched movie y sp !! "streamingProvider" = Some sp.
Proof. done. Qed.

Lemma buildMovieObject_run movie sched obj :
  outcome (run sched (buildMovieObject movie)) = Some (Fulfilled obj) →
  ∃ i1 env1 i2 env2 rest html sp,
    sched = (i1, env1) :: (i2, env2) :: rest ∧
    env1 (trailer_request movie) = Fulfilled (JString html) ∧
    env2 (provider_request movie) = Fulfilled sp ∧
    obj = enriched movie (videoId_of html) sp.
Proof.
  destruct sched as [|[i1 env1] sched]; [done|].
  change (run ((i1, env1) :: sched) (buildMovieObject movie))
    with (run sched (step env1 i1 (buildMovieObject movie))).
  rewrite buildMovieObject_step.
  destruct (env1 (trailer_request movie)) as [data|e] eqn:H1.
  2:{ by rewrite (run_settled _ _ (Rejected e)). }
  destruct (resolved data) as [y|e] eqn:Hy.
  2:{ by rewrite (run_settled _ _ (Rejected e)). }
  apply resolved_Fulfilled in Hy as (html & -> & ->).
  destruct sched as [|[i2 env2] sched]; [done|].
  change (run ((i2, env2) :: sched) (awaiting_provider movie (videoId_of html)))
    with (run sched (step env2 i2 (awaiting_provider movie (videoId_of html)))).
  rewrite awaiting_provider_step.
  destruct (env2 (provider_request movie)) as [sp|e] eqn:H2.
  2:{ by rewrite (run_settled _ _ (Rejected e)). }
  rewrite (run_settled _ _ (Fulfilled (enriched movie (videoId_of html) sp))) by done.
  intros [= <-]. by exists i1, env1, i2, env2, sched, html, sp.
Qed.

(** ** A batch: [await Promise.all(items.map(f))] *)

Definition batch_post {A X : Type} (P : A → Settled X → Prop) (items : list A)
    (r : Settled (list X)) : Prop :=
  match r with
  | Fulfilled vs => Forall2 (λ m v, P m (Fulfilled v)) items vs
  | Rejected e => ∃ m, m ∈ items ∧ P m (Rejected e)
  end.

Lemma AllSettle_map {A X : Type} OK (f : A → Async X) (P : A → Settled X → Prop)
    n items :
  (∀ m, m ∈ items → Settles OK (P m) n (f m)) →
  AllSettle OK (map P items) (n * length items) (map f items).
Proof.
  induction items as [|m items IH]; intros H; simpl.
  - constructor.
  - econstructor; [apply H; by left|apply IH; intros; apply H; by right|lia].
Qed.

Lemma batch_Settles {A X : Type} OK (f : A → Async X) (P : A → Settled X → Prop)
    n items :
  (∀ m, m ∈ items → Settles OK (P m) n (f m)) →
  Settles OK (batch_post P items) (n * length items) (await_all (map f items) Return).
Proof.
  intros H. rewrite <- (Nat.add_0_r (n * length items)).
  eapply Settles_await_all; [by apply AllSettle_map| |].
  - intros vs Hvs. simpl. by apply Forall2_fmap_l in Hvs.
  - intros Q e (m & -> & Hm)%list_elem_of_fmap HQ. simpl. eauto.
Qed.

(** The values of a fulfilled batch are in the order of its items. *)
Lemma batch_length {A X : Type} (P : A → Settled X → Prop) items vs :
  batch_post P items (Fulfilled vs) → length vs = length items.
Proof. intros H. symmetry. by eapply Forall2_length. Qed.

(** ** Sampling and shuffling *)

Section Sampling.
Variable E : SortEngine.
Variable tape : nat → Q.
Context {A : Type}.
Implicit Types (array pool : list A) (count n : nat).

Lemma run_plan_leaf (p : SortPlan A) comparefn n :
  Leaf p (run_plan p comparefn n).1.
Proof.
  revert n. induction p as [out|a b k IH]; intros n; simpl.
  - constructor.
  - unfold rand_bind. destruct (comparefn a b n) as [v n'].
    apply (leaf_below a b k (sign_of v)), IH.
Qed.

Lemma Array_sort_permutes comparefn array n :
  (Array_sort E comparefn array n).1 ≡ₚ array.
Proof. symmetry. apply (plan_permutes E), run_plan_leaf. Qed.

Lemma shuffleArray_permutes array n : (shuffleArray E tape array n).1 ≡ₚ array.
Proof. apply Array_sort_permutes. Qed.

(** A sample is the head of a rearrangement of the pool. *)
Lemma getRandomItems_prefix pool count n :
  ∃ shuffled, shuffled ≡ₚ pool ∧
              (getRandomItems E tape pool count n).1 = take count shuffled.
Proof.
  exists (Array_sort E (random_comparator tape) pool n).1.
  split; [apply Array_sort_permutes|].
  unfold getRandomItems, rand_bind.
  by destruct (Array_sort E (random_comparator tape) pool n).
Qed.

Lemma getRandomItems_length pool count n :
  length (getRandomItems E tape pool count n).1 = count `min` length pool.
Proof.
  destruct (getRandomItems_prefix pool count n) as (l & Hl & ->).
  by rewrite length_take, Hl.
Qed.

Lemma getRandomItems_elem_of pool count n x :
  x ∈ (getRandomItems E tape pool count n).1 → x ∈ pool.
Proof.
  destruct (getRandomItems_prefix pool count n) as (l & Hl & ->).
  intros Hx. rewrite <- Hl. by eapply subseteq_take.
Qed.

Lemma getRandomItems_short pool count n :
  length pool ≤ count → (getRandomItems E tape pool count n).1 ≡ₚ pool.
Proof.
  intros Hle. destruct (getRandomItems_prefix pool count n) as (l & Hl & ->).
  rewrite take_ge; [done|]. by rewrite Hl.
Qed.
End Sampling.

(** The movies that [landingPageMovies] enriches, in order. *)
Definition landing_selection (E : SortEngine) (tape : nat → Q)
    (trending topRated : list CatalogRecord) : list CatalogRecord :=
  eval_rand (
    trendingSample ←$ getRandomItems E tape trending 8;
    topRatedSample ←$ getRandomItems E tape topRated 2;
    shuffleArray E tape (trendingSample ++ topRatedSample)).

(** [landingPageMovies] once both pools have arrived. *)
Definition landing_batch (E : SortEngine) (tape : nat → Q)
    (trending topRated : list CatalogRecord) : Async (list EnrichedMovie) :=
  await_all (map buildMovieObject (landing_selection E tape trending topRated)) Return.

Lemma landing_selection_samples E tape trending topRated :
  ∃ n1,
    landing_selection E tape trending topRated ≡ₚ
      (getRandomItems E tape trending 8 0).1 ++ (getRandomItems E tape topRated 2 n1).1.
Proof.
  unfold landing_selection, eval_rand, rand_bind.
  destruct (getRandomItems E tape trending 8 0) as [s1 n1]. exists n1.
  destruct (getRandomItems E tape topRated 2 n1) as [s2 n2].
  apply shuffleArray_permutes.
Qed.

Lemma landing_selection_length E tape trending topRated :
  length (landing_selection E tape trending topRated) =
  8 `min` length trending + 2 `min` length topRated.
Proof.
  destruct (landing_selection_samples E tape trending topRated) as (n1 & ->).
  by rewrite length_app, !getRandomItems_length.
Qed.

Lemma landingPageMovies_pending E tape :
  pending (landingPageMovies E tape) = [GetTrendingMovies].
Proof. done. Qed.

Lemma landingPageMovies_steps E tape sched i1 env1 i2 env2 trending topRated :
  env1 GetTrendingMovies = Fulfilled trending →
  env2 GetTopRatedMovies = Fulfilled topRated →
  run ((i1, env1) :: (i2, env2) :: sched) (landingPageMovies E tape) =
  run sched (landing_batch E tape trending topRated).
Proof.
  intros H1 H2. unfold run. simpl. f_equal.
  unfold step. simpl. rewrite H1. simpl. rewrite H2. done.
Qed.

(** ** Rejections *)

(** Induction over computations and the tasks they wait for. *)
Section Async_nested_ind.
Variable P : ∀ R : Type, Async R → Prop.
Hypothesis HReturn : ∀ R (r : R), P R (Return r).
Hypothesis HThrow : ∀ R e, P R (Throw e).
Hypothesis HAwait : ∀ R q (k : Resp q → Async R), (∀ x, P R (k x)) → P R (Await q k).
Hypothesis HAwaitAll : ∀ R X (ts : list (Async X)) (k : list X → Async R),
  Forall (P X) ts → (∀ vs, P R (k vs)) → P R (AwaitAll ts k).

Fixpoint Async_nested_ind (R : Type) (a : Async R) : P R a :=
  match a with
  | Return r => HReturn R r
  | Throw e => HThrow R e
  | Await q k => HAwait R q k (λ x, Async_nested_ind R (k x))
  | @AwaitAll _ X ts k =>
      HAwaitAll R X ts k
        ((fix tasks (ts : list (Async X)) : Forall (P X) ts :=
            match ts with
            | [] => @List.Forall_nil _ (P X)
            | t :: ts' =>
                @List.Forall_cons _ (P X) t ts' (Async_nested_ind X t) (tasks ts')
            end) ts)
        (λ vs, Async_nested_ind R (k vs))
  end.
End Async_nested_ind.

(** A suspended [Promise.all] holds no rejected task and a task that has
    not settled: [await_all] builds no other. *)
Fixpoint wf {R : Type} (a : Async R) : Prop :=
  match a with
  | Return _ | Throw _ => True
  | Await q k => ∀ x, wf (k x)
  | AwaitAll ts k =>
      foldr (λ t acc, wf t ∧ acc) True ts ∧
      first_rejection ts = None ∧ all_fulfilled ts = None ∧ ∀ vs, wf (k vs)
  end.

Lemma wf_tasks {X : Type} (ts : list (Async X)) :
  foldr (λ t acc, wf t ∧ acc) True ts ↔ Forall wf ts.
Proof.
  induction ts as [|t ts IH]; simpl; [by split|].
  rewrite Forall_cons. by rewrite IH.
Qed.

Lemma wf_await_all {X R : Type} (ts : list (Async X)) (k : list X → Async R) :
  Forall wf ts → (∀ vs, wf (k vs)) → wf (await_all ts k).
Proof.
  intros Hts Hk. unfold await_all.
  destruct (first_rejection ts) eqn:Hr; [done|].
  destruct (all_fulfilled ts) eqn:Hf; [done|].
  simpl. by rewrite wf_tasks.
Qed.

Lemma settle_in_Forall {T : Type} (Q : T → Prop) len (f : nat → T → T) i ts :
  Forall (λ t, Q t ∧ ∀ j, Q (f j t)) ts → Forall Q (settle_in len f i ts).
Proof.
  intros H. revert i. induction H as [|t ts [Ht Hf] Hts IH]; intros i; simpl.
  - constructor.
  - destruct (decide (i < len t)); constructor; auto.
    eapply Forall_impl; [exact Hts|]. by intros ? [? _].
Qed.

Lemma wf_settle {R : Type} (a : Async R) env i : wf a → wf (settle env i a).
Proof.
  revert R a i.
  refine (Async_nested_ind (λ R a, ∀ i, wf a → wf (settle env i a)) _ _ _ _);
    simpl; try done.
  - intros R q k _ i Hk. by destruct (env q).
  - intros R X ts k IHts IHk i (Hts & _ & _ & Hk).
    apply wf_await_all; [|done]. apply settle_in_Forall.
    apply wf_tasks in Hts. rewrite Forall_forall in IHts, Hts.
    apply Forall_forall. intros t Ht. split; [by apply Hts|].
    intros j. apply IHts; [done|]. by apply Hts.
Qed.

Lemma wf_run {R : Type} (a : Async R) sched : wf a → wf (run sched a).
Proof.
  revert a. induction sched as [|[i env] sched IH]; intros a Ha; [done|].
  apply (IH (step env i a)), wf_settle, Ha.
Qed.

(** The slot [i] of a batch belongs to one task. *)
Lemma settle_in_lookup {T : Type} (slots : T → list Request) (f : nat → T → T)
    i ts q :
  concat (map slots ts) !! i = Some q →
  ∃ j t i', ts !! j = Some t ∧ slots t !! i' = Some q ∧
            settle_in (λ t, length (slots t)) f i ts = <[j := f i' t]> ts.
Proof.
  revert i. induction ts as [|t ts IH]; intros i Hi; simpl in *; [done|].
  destruct (decide (i < length (slots t))) as [Hlt|Hge].
  - rewrite lookup_app_l in Hi by done. by exists 0, t, i.
  - rewrite lookup_app_r in Hi by lia.
    destruct (IH _ Hi) as (j & t' & i' & ? & ? & ->). by exists (S j), t', i'.
Qed.

Lemma first_rejection_insert {X : Type} (ts : list (Async X)) j e :
  j < length ts → first_rejection ts = None →
  first_rejection (<[j := Throw e]> ts) = Some e.
Proof.
  revert j. induction ts as [|t ts IH]; intros j Hj Hr; simpl in *; [lia|].
  destruct j as [|j]; simpl; [done|].
  destruct t; simpl in *; try done; apply IH; auto with lia.
Qed.

(** No function catches: the call whose answer is a rejection rejects the
    whole computation, with that error. *)
Lemma settle_rejected {R : Type} (a : Async R) env i q e :
  wf a → pending a !! i = Some q → env q = Rejected e → settle env i a = Throw e.
Proof.
  revert R a i.
  refine (Async_nested_ind
    (λ R a, ∀ i, wf a → pending a !! i = Some q → env q = Rejected e →
                 settle env i a = Throw e) _ _ _ _); simpl; try done.
  - intros R q' k _ i _ Hq He. apply list_lookup_singleton_Some in Hq as [_ ->].
    by rewrite He.
  - intros R X ts k IHts _ i (Hts & Hr & _ & _) Hq He.
    destruct (settle_in_lookup pending (settle env) i ts q Hq)
      as (j & t & i' & Hj & Hi' & ->).
    apply wf_tasks in Hts. rewrite Forall_forall in IHts, Hts.
    assert (t ∈ ts) as Ht by by eapply list_elem_of_lookup_2.
    rewrite (IHts t Ht i') by auto.
    unfold await_all. rewrite first_rejection_insert; [done| |done].
    by eapply lookup_lt_Some.
Qed.

Lemma step_rejected {R : Type} (a : Async R) env i q e :
  wf a → pending a !! (i mod length (pending a)) = Some q → env q = Rejected e →
  step env i a = Throw e.
Proof. apply settle_rejected. Qed.

Lemma wf_buildMovieObject movie : wf (buildMovieObject movie).
Proof. simpl. intros html. by destruct (html_match html) as [[videoId|]|e]. Qed.

Lemma wf_batch {A X : Type} (f : A → Async X) items :
  (∀ m, wf (f m)) → wf (await_all (map f items) Return).
Proof.
  intros H. apply wf_await_all; [|done].
  apply Forall_forall. intros t (m & -> & _)%list_elem_of_fmap. apply H.
Qed.

Lemma wf_landingPageMovies E tape : wf (landingPageMovies E tape).
Proof.
  simpl. intros trending topRated.
  apply (wf_batch buildMovieObject), wf_buildMovieObject.
Qed.

(** ** Sample data *)

Definition quoted (s : string) : string :=
  String dquote (s +:+ String dquote EmptyString).

(** A page with a video id and a page without. *)
Definition page_with_id : string :=
  "<script>var ytInitialData = {" +:+ quoted "videoId" +:+ ":"
    +:+ quoted "dQw4w9WgXcQ" +:+ "};</script>".

Definition page_without_id : string := "<html><body>no results</body></html>".

Definition sample_movie (n : Z) : CatalogRecord :=
  {| id := n; title := "Heat"; release_date := "1995-12-15";
     vote_average := 79 # 10; backdrop_path := "/heat.jpg" |}.

(** Every call succeeds. *)
Definition online : Env := λ q,
  match q with
  | AxiosGet _ => Fulfilled (JString page_with_id)
  | GetMovieById n => Fulfilled (sample_movie n)
  | GetMovieByTitle _ => Fulfilled (sample_movie 1)
  | GetStreamingProvider _ => Fulfilled (JString "Netflix")
  | GetTrendingMovies => Fulfilled (map sample_movie [1; 2; 3; 4; 5; 6; 7; 8; 9; 10]%Z)
  | GetTopRatedMovies => Fulfilled (map sample_movie [11; 12]%Z)
  end.

(** The scrape finds no video id. *)
Definition online_no_trailer : Env := λ q,
  match q as q' return Settled (Resp q') with
  | AxiosGet _ => Fulfilled (JString page_without_id)
  | q' => online q'
  end.

(** The body of the search response is the JSON text of an empty object,
    which axios hands over parsed. *)
Definition online_json_page : Env := λ q,
  match q as q' return Settled (Resp q') with
  | AxiosGet _ => Fulfilled (JObject [])
  | q' => online q'
  end.

(** Every call fails. *)
Definition offline : Env := λ q, Rejected (NetworkError "ECONNRESET").

Definition sample_tape : nat → Q := λ n, if Nat.even n then (1 # 4)%Q else (3 # 4)%Q.

(** ** The video-id resolver *)

(** On a page of text that holds no substring matching the video-id
    pattern [getYoutubeId] is fulfilled with [null]; a failed request is a
    rejection with the error of the request. *)
Lemma getYoutubeId_absent_on_miss (searchQuery html : string) (env : Env) (i : nat) :
  env (AxiosGet (search_url searchQuery)) = Fulfilled (JString html) →
  ¬ has_videoId html →
  outcome (step env i (getYoutubeId searchQuery)) = Some (Fulfilled JNull) ∧
  ∀ (env' : Env) (e : Error),
    env' (AxiosGet (search_url searchQuery)) = Rejected e →
    outcome (step env' i (getYoutubeId searchQuery)) = Some (Rejected e).
Proof.
  intros Henv Hno. apply match_videoId_None in Hno. split.
  - unfold step. simpl. rewrite Henv. simpl. by rewrite Hno.
  - intros env' e He. unfold step. simpl. by rewrite He.
Qed.

Lemma getYoutubeId_absent_on_miss_witness :
  outcome (step online_no_trailer 0 (getYoutubeId "Heat trailer")) = Some (Fulfilled JNull) ∧
  ∀ (env' : Env) (e : Error),
    env' (AxiosGet (search_url "Heat trailer")) = Rejected e →
    outcome (step env' 0 (getYoutubeId "Heat trailer")) = Some (Rejected e).
Proof.
  apply (getYoutubeId_absent_on_miss "Heat trailer" page_without_id online_no_trailer 0).
  - reflexivity.
  - apply match_videoId_None. vm_compute. reflexivity.
Defined.

(** C9. The claim fails on a page that is not text: when the body of the
    response is JSON other than a string, [response.data] is the parsed
    value, which has no method [match], and [getYoutubeId] throws a
    [TypeError] although the request succeeded and the page holds no video
    id. *)
Theorem getYoutubeId_throws_on_parsed_page (searchQuery : string) (html : JsValue)
    (env : Env) (i : nat) :
  env (AxiosGet (search_url searchQuery)) = Fulfilled html →
  (∀ text, html ≠ JString text) →
  ∃ msg,
    outcome (step env i (getYoutubeId searchQuery)) = Some (Rejected (TypeError msg)).
Proof.
  intros Henv Hdata. unfold step. simpl. rewrite Henv.
  destruct html as [| | |text| |]; simpl; eauto. by destruct (Hdata text).
Qed.

Lemma getYoutubeId_throws_on_parsed_page_witness :
  ∃ msg,
    outcome (step online_json_page 0 (getYoutubeId "Heat trailer"))
      = Some (Rejected (TypeError msg)).
Proof.
  apply (getYoutubeId_throws_on_parsed_page "Heat trailer" (JObject []) online_json_page 0).
  - reflexivity.
  - discriminate.
Defined.

(** ** The enricher *)

(** C1. An enriched movie carries the [id] of the record it was built from,
    and the objects of a batch that is enriched concurrently carry the ids
    of its records, position by position, whatever the order in which the
    calls are answered. *)
Theorem enrich_preserves_id (movies : list CatalogRecord) (sched : Schedule) :
  (∀ movie obj,
     outcome (run sched (buildMovieObject movie)) = Some (Fulfilled obj) →
     obj !! "id" = Some (JNumber (inject_Z (id movie)))) ∧
  (∀ res,
     outcome (run sched (await_all (map buildMovieObject movies) Return))
       = Some (Fulfilled res) →
     Forall2 (λ movie obj, obj !! "id" = Some (JNumber (inject_Z (id movie))))
       movies res).
Proof.
  split.
  - intros movie obj (?&?&?&?&?&?&?&_&_&_&->)%buildMovieObject_run.
    apply enriched_id.
  - intros res Hres.
    pose proof (batch_Settles (λ _, True) buildMovieObject built_from 2 movies
                  (λ m _, buildMovieObject_Settles _ m)) as H.
    eapply Settles_sound in H; [|by apply Forall_forall|exact Hres].
    simpl in H. eapply Forall2_impl; [exact H|].
    intros movie obj (y & sp & ->). apply enriched_id.
Qed.

Lemma enrich_preserves_id_witness :
  Forall2 (λ movie obj, obj !! "id" = Some (JNumber (inject_Z (id movie))))
    (map sample_movie [7; 3; 5]%Z)
    (map (λ n, enriched (sample_movie n) (JString "dQw4w9WgXcQ") (JString "Netflix"))
       [7; 3; 5]%Z).
Proof.
  apply (proj2 (enrich_preserves_id (map sample_movie [7; 3; 5]%Z)
    [(2, online); (0, online); (1, online); (0, online); (0, online); (0, online)])).
  reflexivity.
Defined.

(** C10. An enriched movie has the keys [youtubeId] and
    [streamingProvider]; when the scrape found no video id the key
    [youtubeId] is there and holds [null]. *)
Theorem enriched_movie_keys (movie : CatalogRecord) (sched : Schedule)
    (obj : EnrichedMovie) :
  outcome (run sched (buildMovieObject movie)) = Some (Fulfilled obj) →
  is_Some (obj !! "youtubeId") ∧ is_Some (obj !! "streamingProvider") ∧
  ∀ i env rest html,
    sched = (i, env) :: rest →
    env (trailer_request movie) = Fulfilled (JString html) →
    ¬ has_videoId html →
    obj !! "youtubeId" = Some JNull.
Proof.
  intros (i1 & env1 & i2 & env2 & rest & html & sp & -> & H1 & H2 & ->)%buildMovieObject_run.
  rewrite enriched_youtubeId, enriched_streamingProvider.
  split_and!; [done..|].
  intros i env rest' html' [= <- <- <-] Hhtml Hno.
  rewrite H1 in Hhtml. injection Hhtml as <-.
  apply match_videoId_None in Hno. unfold videoId_of. by rewrite Hno.
Qed.

Lemma enriched_movie_keys_witness :
  is_Some (enriched (sample_movie 949) JNull (JString "Netflix") !! "youtubeId") ∧
  is_Some (enriched (sample_movie 949) JNull (JString "Netflix") !! "streamingProvider") ∧
  ∀ i env rest html,
    [(0, online_no_trailer); (0, online)] = (i, env) :: rest →
    env (trailer_request (sample_movie 949)) = Fulfilled (JString html) →
    ¬ has_videoId html →
    enriched (sample_movie 949) JNull (JString "Netflix") !! "youtubeId" = Some JNull.
Proof.
  apply (enriched_movie_keys (sample_movie 949)
           [(0, online_no_trailer); (0, online)]).
  reflexivity.
Defined.

(** The two calls of an enrichment are outstanding together. *)
Definition issues_both_at_once (movie : CatalogRecord) : Prop :=
  trailer_request movie ∈ pending (buildMovieObject movie) ∧
  provider_request movie ∈ pending (buildMovieObject movie).

(** C5, as stated, fails: when [buildMovieObject] is suspended for the first
    time only the trailer request has been issued. *)
Lemma buildMovieObject_not_concurrent : ¬ issues_both_at_once (sample_movie 949).
Proof.
  intros [_ H]. rewrite buildMovieObject_pending in H.
  apply list_elem_of_singleton in H. discriminate H.
Qed.

(** C5, amended. [buildMovieObject] issues its two calls one after the
    other: the trailer lookup, for the title followed by the suffix
    [ trailer], is the only call outstanding at first; the provider lookup,
    by catalog id, is issued once the page has arrived, and is not issued
    when the trailer lookup fails. *)
Theorem buildMovieObject_sequential (movie : CatalogRecord) (env : Env) (i : nat) :
  pending (buildMovieObject movie)
    = [AxiosGet (search_url (title movie +:+ " trailer"))] ∧
  pending (step env i (buildMovieObject movie))
    = match env (trailer_request movie) with
      | Fulfilled html =>
          match html_match html with
          | Fulfilled _ => [GetStreamingProvider (id movie)]
          | Rejected _ => []
          end
      | Rejected _ => []
      end ∧
  ∀ e, env (trailer_request movie) = Rejected e →
       step env i (buildMovieObject movie) = Throw e.
Proof.
  split; [done|]. rewrite buildMovieObject_step.
  destruct (env (trailer_request movie)) as [html|e]; [|split; done || congruence].
  unfold resolved. destruct (html_match html) as [[videoId|]|e]; by split.
Qed.

(** ** Sampling and shuffling: what is kept *)

(** C7. The shuffle returns a rearrangement of its input, so the ids of the
    shuffled movies are the ids of the input, as multisets; every sampled
    item is an item of its pool, and every movie that the landing page
    enriches comes from one of the two pools. *)
Theorem shuffle_keeps_items (E : SortEngine) (tape : nat → Q)
    (array : list CatalogRecord) (n : nat) :
  (shuffleArray E tape array n).1 ≡ₚ array ∧
  map id (shuffleArray E tape array n).1 ≡ₚ map id array ∧
  (∀ count movie, movie ∈ (getRandomItems E tape array count n).1 → movie ∈ array) ∧
  (∀ topRated movie,
     movie ∈ landing_selection E tape array topRated →
     movie ∈ array ∨ movie ∈ topRated).
Proof.
  split_and!.
  - apply shuffleArray_permutes.
  - apply Permutation_map, shuffleArray_permutes.
  - intros count movie. apply getRandomItems_elem_of.
  - intros topRated movie Hin.
    destruct (landing_selection_samples E tape array topRated) as (n1 & Hsel).
    rewrite Hsel in Hin. apply elem_of_app in Hin as [Hin|Hin];
      [left|right]; by eapply getRandomItems_elem_of.
Qed.

Lemma shuffle_keeps_items_witness :
  sample_movie 12 ∈ map sample_movie [1; 2; 3; 4; 5; 6; 7; 8; 9; 10]%Z ∨
  sample_movie 12 ∈ map sample_movie [11; 12]%Z.
Proof.
  apply (proj2 (proj2 (proj2 (shuffle_keeps_items insertion_sort sample_tape
    (map sample_movie [1; 2; 3; 4; 5; 6; 7; 8; 9; 10]%Z) 0))) (map sample_movie [11; 12]%Z)).
  vm_compute. apply list_elem_of_In. right. left. reflexivity.
Defined.

(** ** The landing page *)

(** Every call is fulfilled, the scrape with a page of text, so that
    [getYoutubeId] succeeds as well. *)
Definition succeeds (env : Env) : Prop :=
  (∀ q, ∃ v, env q = Fulfilled v) ∧
  (∀ url, ∃ html, env (AxiosGet url) = Fulfilled (JString html)).

(** Every call succeeds and the catalog returns the two pools. *)
Definition serves (trending topRated : list CatalogRecord) (env : Env) : Prop :=
  env GetTrendingMovies = Fulfilled trending ∧
  env GetTopRatedMovies = Fulfilled topRated ∧
  succeeds env.

Definition built_ok (movie : CatalogRecord) (r : Settled EnrichedMovie) : Prop :=
  ∃ youtubeId sp, r = Fulfilled (enriched movie youtubeId sp).

Lemma buildMovieObject_succeeds OK movie :
  (∀ env, OK env → succeeds env) →
  Settles OK (built_ok movie) 2 (buildMovieObject movie).
Proof.
  intros HOK. split; [done|]. intros i env Henv. rewrite buildMovieObject_step.
  destruct (proj2 (HOK env Henv) (search_url (title movie +:+ " trailer"))) as [html Hhtml].
  unfold trailer_request. rewrite Hhtml, resolved_text.
  split; [done|]. intros i' env' Henv'. rewrite awaiting_provider_step.
  destruct (proj1 (HOK env' Henv') (provider_request movie)) as [sp ->].
  by exists (videoId_of html), sp.
Qed.

(** [landingPageMovies] once the trending pool has arrived. *)
Definition awaiting_topRated (E : SortEngine) (tape : nat → Q)
    (trending : list CatalogRecord) : Async (list EnrichedMovie) :=
  Await GetTopRatedMovies (λ topRated, landing_batch E tape trending topRated).

Lemma landingPageMovies_step E tape env i :
  step env i (landingPageMovies E tape) =
  match env GetTrendingMovies with
  | Fulfilled trending => awaiting_topRated E tape trending
  | Rejected e => Throw e
  end.
Proof. unfold step. cbn [landingPageMovies bind call settle]. by destruct (env _). Qed.

Lemma awaiting_topRated_step E tape trending env i :
  step env i (awaiting_topRated E tape trending) =
  match env GetTopRatedMovies with
  | Fulfilled topRated => landing_batch E tape trending topRated
  | Rejected e => Throw e
  end.
Proof. done. Qed.

Lemma Settles_S {R : Type} OK (P : Settled R → Prop) n (a : Async R) :
  outcome a = None → pending a ≠ [] →
  (∀ i env, OK env → Settles OK P n (step env i a)) →
  Settles OK P (S n) a.
Proof. intros Ho Hp H. cbn [Settles]. by rewrite Ho. Qed.

Lemma landingPageMovies_Settles E tape trending topRated :
  Settles (serves trending topRated)
    (λ r, ∃ res, r = Fulfilled res ∧
                 Forall2 (λ m obj, built_ok m (Fulfilled obj))
                   (landing_selection E tape trending topRated) res)
    22 (landingPageMovies E tape).
Proof.
  apply Settles_S; [done..|]. intros i1 env1 (H1 & _ & _).
  rewrite landingPageMovies_step, H1.
  apply Settles_S; [done..|]. intros i2 env2 (_ & H2 & _).
  rewrite awaiting_topRated_step, H2. unfold landing_batch.
  eapply Settles_mono, Settles_weaken; last first.
  - apply (batch_Settles _ buildMovieObject built_ok 2).
    intros m _. apply buildMovieObject_succeeds. by intros env (_ & _ & ?).
  - intros [res|e]; [by exists res|]. by intros (m & _ & y & sp & ?).
  - rewrite landing_selection_length. lia.
Qed.

(** C4. When every call succeeds the landing page returns exactly
    [min 8 |trending| + min 2 |topRated|] movies, in at most 22 answers;
    a sample from a pool that is shorter than the requested count holds
    all the items of the pool. *)
Theorem landingPageMovies_count (E : SortEngine) (tape : nat → Q)
    (trending topRated : list CatalogRecord) (sched : Schedule) :
  answers (serves trending topRated) sched → 22 ≤ length sched →
  (∃ res, outcome (run sched (landingPageMovies E tape)) = Some (Fulfilled res) ∧
          length res = 8 `min` length trending + 2 `min` length topRated) ∧
  (∀ (pool : list CatalogRecord) count n,
     length (getRandomItems E tape pool count n).1 = count `min` length pool ∧
     (length pool ≤ count → (getRandomItems E tape pool count n).1 ≡ₚ pool)).
Proof.
  intros Hs Hlen. split.
  - destruct (Settles_total _ _ _ _ _ (landingPageMovies_Settles E tape trending topRated)
                Hs Hlen) as (r & Hr & res & -> & Hres).
    exists res. split; [done|].
    rewrite <- (Forall2_length _ _ _ Hres). apply landing_selection_length.
  - intros pool count n. split; [apply getRandomItems_length|].
    apply getRandomItems_short.
Qed.

Lemma online_serves :
  serves (map sample_movie [1; 2; 3; 4; 5; 6; 7; 8; 9; 10]%Z)
         (map sample_movie [11; 12]%Z) online.
Proof.
  unfold serves, succeeds.
  split_and!; [done|done|intros []; simpl; eauto|intros url; simpl; eauto].
Qed.

Lemma landingPageMovies_count_witness :
  (∃ res,
     outcome (run (replicate 22 (0, online)) (landingPageMovies insertion_sort sample_tape))
       = Some (Fulfilled res) ∧
     length res = 8 `min` 10 + 2 `min` 2) ∧
  (∀ (pool : list CatalogRecord) count n,
     length (getRandomItems insertion_sort sample_tape pool count n).1
       = count `min` length pool ∧
     (length pool ≤ count →
      (getRandomItems insertion_sort sample_tape pool count n).1 ≡ₚ pool)).
Proof.
  apply (landingPageMovies_count insertion_sort sample_tape
           (map sample_movie [1; 2; 3; 4; 5; 6; 7; 8; 9; 10]%Z)
           (map sample_movie [11; 12]%Z) (replicate 22 (0, online))).
  - apply Forall_replicate, online_serves.
  - vm_compute. reflexivity.
Defined.

(** The answer of [env] to the call [q] makes the function that awaits it
    throw [e]: the call is rejected with [e], or it is the scrape and is
    fulfilled with a page on which [html.match] throws [e]. *)
Definition answer_fails (env : Env) (q : Request) (e : Error) : Prop :=
  env q = Rejected e ∨
  ∃ url html, q = AxiosGet url ∧ env (AxiosGet url) = Fulfilled html ∧
              html_match html = Rejected e.

(** The states of one enrichment and of the landing page. *)
Inductive enrich_state : Async EnrichedMovie → Prop :=
| enrich_start movie : enrich_state (buildMovieObject movie)
| enrich_provider movie youtubeId : enrich_state (awaiting_provider movie youtubeId)
| enrich_done obj : enrich_state (Return obj)
| enrich_failed e : enrich_state (Throw e).

Inductive landing_state (E : SortEngine) (tape : nat → Q)
  : Async (list EnrichedMovie) → Prop :=
| landing_start : landing_state E tape (landingPageMovies E tape)
| landing_topRated trending : landing_state E tape (awaiting_topRated E tape trending)
| landing_enriching ts :
    Forall enrich_state ts → landing_state E tape (await_all ts Return)
| landing_done res : landing_state E tape (Return res)
| landing_failed e : landing_state E tape (Throw e).

Lemma enrich_state_settle env j t : enrich_state t → enrich_state (settle env j t).
Proof.
  intros [movie|movie y|obj|e]; try constructor.
  - change (settle env j (buildMovieObject movie))
      with (step env 0 (buildMovieObject movie)).
    rewrite buildMovieObject_step.
    destruct (env (trailer_request movie)) as [html|e]; [|constructor].
    destruct (resolved html); constructor.
  - change (settle env j (awaiting_provider movie y))
      with (step env 0 (awaiting_provider movie y)).
    rewrite awaiting_provider_step.
    destruct (env (provider_request movie)); constructor.
Qed.

Lemma landing_state_step E tape env i a :
  landing_state E tape a → landing_state E tape (step env i a).
Proof.
  intros [|trending|ts Hts|res|e].
  - rewrite landingPageMovies_step. destruct (env GetTrendingMovies); constructor.
  - rewrite awaiting_topRated_step.
    destruct (env GetTopRatedMovies) as [topRated|e]; [|constructor].
    apply landing_enriching, Forall_forall.
    intros t (m & -> & _)%list_elem_of_fmap. constructor.
  - unfold await_all.
    destruct (first_rejection ts) as [e|] eqn:Hr; [constructor|].
    destruct (all_fulfilled ts) as [vs|] eqn:Hf; [constructor|].
    + unfold step. cbn [settle]. apply landing_enriching, settle_in_Forall.
      eapply Forall_impl; [exact Hts|]. intros t Ht. split; [done|].
      intros j. by apply enrich_state_settle.
  - constructor.
  - constructor.
Qed.

Lemma landing_state_run E tape sched :
  landing_state E tape (run sched (landingPageMovies E tape)).
Proof.
  assert (∀ a, landing_state E tape a → landing_state E tape (run sched a)) as H.
  { induction sched as [|[i env] sched IH]; intros a Ha; [done|].
    apply (IH (step env i a)), landing_state_step, Ha. }
  apply H. constructor.
Qed.

Lemma enrich_state_fails env j t q e :
  enrich_state t → pending t !! j = Some q → answer_fails env q e →
  settle env j t = Throw e.
Proof.
  intros [movie|movie y|obj|e'] Hq Hfail; try done.
  - rewrite buildMovieObject_pending in Hq.
    apply list_lookup_singleton_Some in Hq as [_ <-].
    change (settle env j (buildMovieObject movie))
      with (step env 0 (buildMovieObject movie)).
    rewrite buildMovieObject_step. unfold trailer_request in *.
    destruct Hfail as [Hrej|(url & html & Hurl & Hdata & Hm)].
    + by rewrite Hrej.
    + injection Hurl as <-. rewrite Hdata. unfold resolved. by rewrite Hm.
  - apply list_lookup_singleton_Some in Hq as [_ <-].
    change (settle env j (awaiting_provider movie y))
      with (step env 0 (awaiting_provider movie y)).
    rewrite awaiting_provider_step.
    destruct Hfail as [Hrej|(url & html & Hurl & _)]; [|done].
    unfold provider_request in *. by rewrite Hrej.
Qed.

Lemma landing_state_fails E tape env j a q e :
  landing_state E tape a → pending a !! j = Some q → answer_fails env q e →
  settle env j a = Throw e.
Proof.
  intros [|trending|ts Hts|res|e'] Hq Hfail; try done.
  - apply list_lookup_singleton_Some in Hq as [_ <-].
    change (settle env j (landingPageMovies E tape))
      with (step env 0 (landingPageMovies E tape)).
    rewrite landingPageMovies_step.
    destruct Hfail as [Hrej|(url & html & Hurl & _)]; [|done]. by rewrite Hrej.
  - apply list_lookup_singleton_Some in Hq as [_ <-].
    change (settle env j (awaiting_topRated E tape trending))
      with (step env 0 (awaiting_topRated E tape trending)).
    rewrite awaiting_topRated_step.
    destruct Hfail as [Hrej|(url & html & Hurl & _)]; [|done]. by rewrite Hrej.
  - revert Hq. unfold await_all at 1 2.
    destruct (first_rejection ts) as [e'|] eqn:Hr; [done|].
    destruct (all_fulfilled ts) as [vs|] eqn:Hf; [done|].
    intros Hq. cbn [pending settle] in *.
    destruct (settle_in_lookup pending (settle env) j ts q Hq)
      as (j' & t & i' & Hj' & Hi' & ->).
    rewrite (enrich_state_fails env i' t q e); [|
      by eapply (proj1 (Forall_forall _ _) Hts), list_elem_of_lookup_2|done|done].
    unfold await_all. rewrite first_rejection_insert; [done| |done].
    by eapply lookup_lt_Some.
Qed.

Lemma landing_step_fails E tape env i a q e :
  landing_state E tape a → pending a !! (i mod length (pending a)) = Some q →
  answer_fails env q e → step env i a = Throw e.
Proof. apply landing_state_fails. Qed.

(** C3. As soon as one call of the landing page is answered in a way that
    makes its caller fail, a fetch of a pool or a call of one of the
    enrichments that is rejected, or a scrape that succeeds with a page on
    which [getYoutubeId] throws, the whole call is rejected with that
    error, whatever was fulfilled before and whatever is answered later:
    no list is returned. *)
Theorem landingPageMovies_fails_whole_batch (E : SortEngine) (tape : nat → Q)
    (before after : Schedule) (i : nat) (env : Env) (q : Request) (e : Error) :
  pending (run before (landingPageMovies E tape))
    !! (i mod length (pending (run before (landingPageMovies E tape)))) = Some q →
  answer_fails env q e →
  outcome (run (before ++ (i, env) :: after) (landingPageMovies E tape))
    = Some (Rejected e).
Proof.
  intros Hq He. unfold run. rewrite foldl_app. simpl.
  fold (run before (landingPageMovies E tape)).
  erewrite landing_step_fails; [|apply landing_state_run|exact Hq|exact He].
  fold (run after (Throw (R := list EnrichedMovie) e)).
  by rewrite (run_settled _ _ (Rejected e)).
Qed.

(** Ten candidates, nine enrichments succeed, the tenth meets a network
    error. *)
Lemma landingPageMovies_fails_whole_batch_witness :
  outcome (run (replicate 20 (0, online) ++ (0, offline) :: replicate 3 (0, online))
             (landingPageMovies insertion_sort sample_tape))
    = Some (Rejected (NetworkError "ECONNRESET")).
Proof.
  apply (landingPageMovies_fails_whole_batch insertion_sort sample_tape
           (replicate 20 (0, online)) (replicate 3 (0, online)) 0 offline
           (trailer_request (sample_movie 3))).
  - vm_compute. reflexivity.
  - left. reflexivity.
Defined.

(** ** The local store *)

#[global] Instance by_popularity_desc_trans : Transitive by_popularity_desc.
Proof. intros r1 r2 r3 H12 H23. unfold by_popularity_desc in *. by eapply Qle_trans. Qed.

#[global] Instance by_popularity_desc_total : Total by_popularity_desc.
Proof.
  intros r1 r2. unfold by_popularity_desc.
  destruct (Qlt_le_dec (popularity r1) (popularity r2)) as [Hlt|Hle]; [|by left].
  right. by apply Qlt_le_weak.
Qed.

(** The rows the query returns. *)
Definition top_rows (st : Store) : list PopularityRow :=
  match movies st with
  | Some rows => take 1000 (merge_sort by_popularity_desc rows)
  | None => []
  end.

(** They are the most popular rows of the table, at most 1000, in
    descending order of popularity. *)
Lemma top_rows_most_popular st rows :
  movies st = Some rows →
  ∃ rest,
    rows ≡ₚ top_rows st ++ rest ∧
    length (top_rows st) = 1000 `min` length rows ∧
    StronglySorted by_popularity_desc (top_rows st) ∧
    ∀ r r', r ∈ top_rows st → r' ∈ rest → (popularity r' <= popularity r)%Q.
Proof.
  intros Hrows. unfold top_rows. rewrite Hrows.
  pose proof (StronglySorted_merge_sort by_popularity_desc rows) as Hsorted.
  pose proof (merge_sort_Permutation by_popularity_desc rows) as Hperm.
  exists (drop 1000 (merge_sort by_popularity_desc rows)).
  rewrite <- (take_drop 1000 (merge_sort by_popularity_desc rows)) in Hsorted.
  split_and!.
  - by rewrite take_drop.
  - by rewrite length_take, Hperm.
  - by eapply StronglySorted_app_1_l.
  - intros r r' Hr Hr'.
    by apply (StronglySorted_app_1_elem_of _ _ _ _ _ Hsorted).
Qed.

(** The ids that [getRandomPopularMovies] looks up. *)
Definition random_ids (E : SortEngine) (tape : nat → Q) (st : Store) : list Z :=
  map row_id (take 10 (eval_rand (Array_sort E (random_comparator tape) (top_rows st)))).

Lemma getRandomPopularMovies_close E tape st rows :
  can_open st = true → movies st = Some rows →
  getRandomPopularMovies E tape st =
  (st, await_all (map createMovieObjectFromID (random_ids E tape st)) Return).
Proof.
  intros Hopen Hrows. unfold getRandomPopularMovies, new_Database, select_top_1000.
  rewrite Hopen. simpl. rewrite Hrows. unfold random_ids, top_rows. rewrite Hrows.
  f_equal. destruct st as [m c o]. simpl in *. by subst.
Qed.

Lemma random_ids_length E tape st : length (random_ids E tape st) ≤ 10.
Proof. unfold random_ids. rewrite length_map, length_take. lia. Qed.

Lemma random_ids_top E tape st n :
  n ∈ random_ids E tape st → ∃ row, row ∈ top_rows st ∧ row_id row = n.
Proof.
  unfold random_ids. intros (row & -> & Hrow)%list_elem_of_fmap.
  exists row. split; [|done]. apply subseteq_take in Hrow.
  unfold eval_rand in Hrow.
  by rewrite (Array_sort_permutes E (random_comparator tape) (top_rows st) 0) in Hrow.
Qed.

(** The promise that is returned, whatever the store. *)
Lemma getRandomPopularMovies_promise E tape st :
  (∃ e, (getRandomPopularMovies E tape st).2 = Throw e) ∨
  (getRandomPopularMovies E tape st).2
    = await_all (map createMovieObjectFromID (random_ids E tape st)) Return.
Proof.
  unfold getRandomPopularMovies, new_Database, select_top_1000, random_ids, top_rows.
  destruct (can_open st); simpl; [|eauto].
  destruct (movies st); simpl; eauto.
Qed.

(** Modelled from the spec: [getMovieById] of the catalog client
    ([fetchMovieInfo.js], not among the sources) is the lookup by id of the
    catalog API, so the record it is fulfilled with has the id that was
    asked for. *)
Definition lookup_faithful (env : Env) : Prop :=
  ∀ n movie, env (GetMovieById n) = Fulfilled movie → id movie = n.

Definition built_for (tmdbId : Z) (r : Settled EnrichedMovie) : Prop :=
  match r with
  | Fulfilled obj => obj !! "id" = Some (JNumber (inject_Z tmdbId))
  | Rejected _ => True
  end.

Lemma createMovieObjectFromID_Settles tmdbId :
  Settles lookup_faithful (built_for tmdbId) 3 (createMovieObjectFromID tmdbId).
Proof.
  split; [done|]. intros i env Henv. unfold step. simpl.
  destruct (env (GetMovieById tmdbId)) as [movie|e] eqn:Hm; [|done].
  pose proof (Henv _ _ Hm) as Hid. rewrite <- Hid.
  change (Settles lookup_faithful (built_for (id movie)) 2 (buildMovieObject movie)).
  eapply Settles_weaken; [|apply buildMovieObject_Settles].
  intros [obj|e]; [|done]. intros (y & sp & ->). apply enriched_id.
Qed.

(** C8. [getRandomPopularMovies] settles within 30 answers; when it returns,
    it returns at most 10 movies, and, the catalog answering each lookup by
    id with the record of that id, the id of every returned movie is the id
    of one of the rows the query returned, which are the up to 1000 most
    popular rows of the table at the time of the call. *)
Theorem getRandomPopularMovies_from_top (E : SortEngine) (tape : nat → Q)
    (st : Store) (sched : Schedule) :
  answers lookup_faithful sched →
  (30 ≤ length sched →
   is_Some (outcome (run sched (getRandomPopularMovies E tape st).2))) ∧
  (∀ res,
     outcome (run sched (getRandomPopularMovies E tape st).2) = Some (Fulfilled res) →
     length res ≤ 10 ∧
     Forall (λ obj, ∃ row, row ∈ top_rows st ∧
                           obj !! "id" = Some (JNumber (inject_Z (row_id row)))) res) ∧
  (∀ rows, movies st = Some rows →
     ∃ rest, rows ≡ₚ top_rows st ++ rest ∧
             length (top_rows st) = 1000 `min` length rows ∧
             ∀ r r', r ∈ top_rows st → r' ∈ rest →
                     (popularity r' <= popularity r)%Q).
Proof.
  intros Hs. split_and!.
  - intros Hlen. destruct (getRandomPopularMovies_promise E tape st) as [[e ->]| ->].
    { by rewrite (run_settled _ _ (Rejected e)). }
    pose proof (batch_Settles lookup_faithful createMovieObjectFromID built_for 3
                  (random_ids E tape st) (λ n _, createMovieObjectFromID_Settles n)) as H.
    eapply Settles_total in H as (r & -> & _); [done|exact Hs|].
    pose proof (random_ids_length E tape st). lia.
  - intros res. destruct (getRandomPopularMovies_promise E tape st) as [[e ->]| ->].
    { by rewrite (run_settled _ _ (Rejected e)). }
    intros Hres.
    pose proof (batch_Settles lookup_faithful createMovieObjectFromID built_for 3
                  (random_ids E tape st) (λ n _, createMovieObjectFromID_Settles n)) as H.
    eapply Settles_sound in H; [|exact Hs|exact Hres]. simpl in H. split.
    + rewrite <- (Forall2_length _ _ _ H). apply random_ids_length.
    + apply Forall_forall. intros obj Hobj.
      apply list_elem_of_lookup in Hobj as [j Hj].
      destruct (Forall2_lookup_r _ _ _ _ _ H Hj) as (n & Hn & Hid).
      apply list_elem_of_lookup_2 in Hn.
      destruct (random_ids_top _ _ _ _ Hn) as (row & Hrow & <-). eauto.
  - intros rows Hrows.
    destruct (top_rows_most_popular st rows Hrows) as (rest & ? & ? & _ & ?). eauto.
Qed.

Definition sample_store : Store :=
  {| movies := Some [ {| row_id := 11; popularity := 5 # 1; row_title := "Heat" |};
                      {| row_id := 12; popularity := 9 # 1; row_title := "Ronin" |};
                      {| row_id := 13; popularity := 7 # 1; row_title := "Thief" |} ];
     can_open := true; open_connections := 0 |}.

(** The file opens but holds no table [movies]. *)
Definition broken_store : Store :=
  {| movies := None; can_open := true; open_connections := 0 |}.

Lemma online_lookup_faithful : lookup_faithful online.
Proof. by intros n movie [= <-]. Qed.

Lemma getRandomPopularMovies_from_top_witness :
  is_Some (outcome (run (replicate 30 (0, online))
                      (getRandomPopularMovies insertion_sort sample_tape sample_store).2)).
Proof.
  refine (proj1 (getRandomPopularMovies_from_top insertion_sort sample_tape sample_store
                   (replicate 30 (0, online)) _) _).
  - apply Forall_replicate, online_lookup_faithful.
  - vm_compute. lia.
Defined.

(** When the query returns, the connection has been closed before the
    first enrichment starts: no later failure can leave it open. *)
Lemma getRandomPopularMovies_closes_after_query E tape st rows :
  can_open st = true → movies st = Some rows →
  open_connections (getRandomPopularMovies E tape st).1 = open_connections st.
Proof. intros Ho Hr. by rewrite (getRandomPopularMovies_close E tape st rows). Qed.

(** C2. The claim fails on the path where the query throws: the connection
    that was opened is still open when the call is rejected. *)
Theorem getRandomPopularMovies_leaks_when_query_throws (E : SortEngine)
    (tape : nat → Q) (st : Store) :
  can_open st = true → movies st = None →
  open_connections (getRandomPopularMovies E tape st).1 = S (open_connections st) ∧
  ∃ e, (getRandomPopularMovies E tape st).2 = Throw e.
Proof.
  intros Ho Hm. unfold getRandomPopularMovies, new_Database, select_top_1000.
  rewrite Ho. simpl. rewrite Hm. simpl. eauto.
Qed.

Lemma getRandomPopularMovies_leaks_when_query_throws_witness :
  open_connections (getRandomPopularMovies insertion_sort sample_tape broken_store).1
    = S (open_connections broken_store) ∧
  ∃ e, (getRandomPopularMovies insertion_sort sample_tape broken_store).2 = Throw e.
Proof.
  apply (getRandomPopularMovies_leaks_when_query_throws insertion_sort sample_tape
           broken_store); reflexivity.
Defined.

(** ** How likely an arrangement is *)

(** [Math.random()] draws one of the [2 ^ (bits + 1)] multiples of
    [1 / 2 ^ (bits + 1)] below 1, each as likely as the others. *)
Definition grid (bits : nat) : positive := 2 ^ Pos.of_succ_nat bits.

(** The sign of [0.5 - Math.random()] for the draw [k / grid bits]. *)
Lemma random_comparator_sign (bits : nat) (k : Z) :
  (0 ≤ k < Z.pos (grid bits))%Z →
  sign_of ((1 # 2) - (k # grid bits))%Q =
  if decide (k < 2 ^ Z.of_nat bits)%Z then Positive
  else if decide (k = 2 ^ Z.of_nat bits)%Z then Zero else Negative.
Proof.
  intros Hk. unfold sign_of, Qcompare, grid in *. simpl.
  rewrite Pos2Z.inj_pow, Zpos_P_of_succ_nat, Z.pow_succ_r in * by lia.
  match goal with
  | |- context [(?a ?= ?b)%Z] => destruct (Z.compare_spec a b)
  end; repeat case_decide; done || lia.
Qed.

(** How likely each sign is: [2 ^ bits] draws are below one half, one draw
    is one half, the others are above. *)
Definition sign_prob (bits : nat) (s : Sign) : Q :=
  match s with
  | Positive => 1 # 2
  | Zero => 1 # grid bits
  | Negative => (1 # 2) - (1 # grid bits)
  end.

(** How likely a plan is to end in an arrangement accepted by [hit], the
    draws being independent. *)
Fixpoint plan_prob {A : Type} (bits : nat) (hit : list A → bool) (p : SortPlan A) : Q :=
  match p with
  | Sorted out => if hit out then 1 else 0
  | Compare _ _ k =>
      sign_prob bits Negative * plan_prob bits hit (k Negative) +
      sign_prob bits Zero * plan_prob bits hit (k Zero) +
      sign_prob bits Positive * plan_prob bits hit (k Positive)
  end.

(** How likely [shuffleArray array] is to return [target]. *)
Definition shuffle_prob {A : Type} `{EqDecision A} (E : SortEngine) (bits : nat)
    (array target : list A) : Q :=
  plan_prob bits (λ out, bool_decide (out = target)) (plan E A array).

(** The shuffle is uniform: each arrangement of the array is returned with
    probability one over the number of arrangements. *)
Definition uniform_shuffle {A : Type} `{EqDecision A} (E : SortEngine) (bits : nat)
    (array : list A) : Prop :=
  ∀ target, target ≡ₚ array →
    (shuffle_prob E bits array target == 1 # Pos.of_nat (fact (length array)))%Q.

(** A rational with a power of two as a denominator. *)
Definition dyadic (x : Q) : Prop :=
  ∃ (m : Z) (n : nat), (x * inject_Z (2 ^ Z.of_nat n) == inject_Z m)%Q.

Lemma dyadic_Z (z : Z) : dyadic (inject_Z z).
Proof. exists z, 0. unfold Qeq. simpl. lia. Qed.

Lemma dyadic_plus x y : dyadic x → dyadic y → dyadic (x + y).
Proof.
  intros (m1 & n1 & H1) (m2 & n2 & H2).
  exists (m1 * 2 ^ Z.of_nat n2 + m2 * 2 ^ Z.of_nat n1)%Z, (n1 + n2).
  rewrite Nat2Z.inj_add, Z.pow_add_r by lia.
  rewrite inject_Z_plus, !inject_Z_mult, <- H1, <- H2. ring.
Qed.

Lemma dyadic_mult x y : dyadic x → dyadic y → dyadic (x * y).
Proof.
  intros (m1 & n1 & H1) (m2 & n2 & H2). exists (m1 * m2)%Z, (n1 + n2).
  rewrite Nat2Z.inj_add, Z.pow_add_r by lia.
  rewrite !inject_Z_mult, <- H1, <- H2. ring.
Qed.

Lemma dyadic_opp x : dyadic x → dyadic (- x).
Proof.
  intros (m & n & H). exists (- m)%Z, n. rewrite inject_Z_opp, <- H. ring.
Qed.

Lemma dyadic_inv_pow2 (n : nat) : dyadic (1 # 2 ^ Pos.of_succ_nat n).
Proof.
  exists 1%Z, (S n). unfold Qeq. cbn [Qmult Qnum Qden inject_Z].
  rewrite Pos2Z.inj_mul, Pos2Z.inj_pow, Zpos_P_of_succ_nat, <- Nat2Z.inj_succ. lia.
Qed.

Lemma dyadic_sign_prob bits s : dyadic (sign_prob bits s).
Proof.
  destruct s; simpl.
  - apply dyadic_plus; [apply (dyadic_inv_pow2 0)|apply dyadic_opp, dyadic_inv_pow2].
  - apply dyadic_inv_pow2.
  - apply (dyadic_inv_pow2 0).
Qed.

Lemma dyadic_plan_prob {A : Type} bits hit (p : SortPlan A) :
  dyadic (plan_prob bits hit p).
Proof.
  induction p as [out|a b k IH]; cbn [plan_prob].
  - destruct (hit out); [apply (dyadic_Z 1)|apply (dyadic_Z 0)].
  - repeat apply dyadic_plus; apply dyadic_mult; auto using dyadic_sign_prob.
Qed.

Lemma pow2_not_multiple_of_3 (n : nat) (m : Z) : (2 ^ Z.of_nat n ≠ 3 * m)%Z.
Proof.
  revert m. induction n as [|n IH]; intros m; [simpl; lia|].
  rewrite Nat2Z.inj_succ, Z.pow_succ_r by lia. intros H.
  apply (IH (2 ^ Z.of_nat n - m)%Z). lia.
Qed.

Lemma fact_multiple_of_3 (n : nat) : 3 ≤ n → ∃ m, fact n = 3 * m.
Proof.
  induction 1 as [|n Hn [m IH]]; [by exists 2|].
  exists (S n * m). simpl fact. rewrite IH. lia.
Qed.

(** One over [n!] is no such rational when [n] is three or more. *)
Lemma not_dyadic_inv_fact (n : nat) :
  3 ≤ n → ¬ dyadic (1 # Pos.of_nat (fact n)).
Proof.
  intros Hn (m & k & H). destruct (fact_multiple_of_3 n Hn) as [c Hc].
  unfold Qeq in H. simpl in H.
  assert (Z.pos (Pos.of_nat (fact n)) = 3 * Z.of_nat c)%Z as Hf.
  { pose proof (lt_O_fact n). rewrite <- positive_nat_Z, Nat2Pos.id by lia. lia. }
  apply (pow2_not_multiple_of_3 k (m * Z.of_nat c)). lia.
Qed.

(** No arrangement of three items or more is returned with probability one
    over the number of arrangements, whatever the engine and however fine
    the grid of [Math.random()]. *)
Lemma shuffle_prob_not_uniform {A : Type} `{EqDecision A} (E : SortEngine)
    (bits : nat) (array target : list A) :
  3 ≤ length array →
  ¬ (shuffle_prob E bits array target == 1 # Pos.of_nat (fact (length array)))%Q.
Proof.
  intros Hlen Heq. apply (not_dyadic_inv_fact (length array) Hlen).
  destruct (dyadic_plan_prob bits (λ out, bool_decide (out = target)) (plan E A array))
    as (m & n & Hm).
  exists m, n. unfold shuffle_prob in Heq. by rewrite <- Heq.
Qed.

(** C6, as stated, fails: on a sequence of three movies no engine shuffles
    uniformly. *)
Lemma shuffleArray_not_uniform :
  ¬ ∃ (E : SortEngine) (bits : nat), uniform_shuffle E bits [1; 2; 3]%Z.
Proof.
  intros (E & bits & Hu).
  apply (shuffle_prob_not_uniform E bits [1; 2; 3]%Z [1; 2; 3]%Z); [simpl; lia|].
  by apply Hu.
Qed.

(** C6, amended. A sample is the first [count] items of a rearrangement of
    its pool, so that no item of the pool is drawn twice, and the shuffle
    returns a rearrangement of the combined sequence; the rearrangements
    are those of a sort under a random comparator, each one returned with a
    probability that is a multiple of a power of one half, and are not
    uniform. *)
Theorem sampling_by_random_sort {A : Type} `{EqDecision A} (E : SortEngine)
    (tape : nat → Q) (pool target : list A) (count n bits : nat) :
  (∃ shuffled, shuffled ≡ₚ pool ∧
               (getRandomItems E tape pool count n).1 = take count shuffled) ∧
  (shuffleArray E tape pool n).1 ≡ₚ pool ∧
  dyadic (shuffle_prob E bits pool target).
Proof.
  split_and!.
  - apply getRandomItems_prefix.
  - apply shuffleArray_permutes.
  - apply dyadic_plan_prob.
Qed.

(** An engine that inserts from the left, on a grid of 53 bits, reverses
    three items more often than it leaves them in place. *)
Example insertion_sort_bias :
  (shuffle_prob insertion_sort 52 [1; 2; 3]%Z [1; 2; 3]%Z
   < shuffle_prob insertion_sort 52 [1; 2; 3]%Z [3; 2; 1]%Z)%Q.
Proof. vm_compute. reflexivity. Qed.

(** * Further properties of the pipeline *)

(** ** The resolver on a page that holds a video id *)

Lemma regex_exec_leftmost s tok :
  regex_exec s = Some tok →
  ∃ j, match_here (drop j s) = Some tok ∧
       ∀ j', j' < j → match_here (drop j' s) = None.
Proof.
  induction s as [|c s IH].
  - intros H. by vm_compute in H.
  - rewrite regex_exec_cons. destruct (match_here (c :: s)) as [tok'|] eqn:Hm.
    + intros [= ->]. exists 0. split; [done|]. intros j' Hj'. lia.
    + intros (j & Hj & Hbefore)%IH. exists (S j). split; [done|].
      intros [|j'] Hj'; [done|]. apply Hbefore. lia.
Qed.

(** X1. When the fetched page is text and holds a video id, [getYoutubeId]
    returns the token of the leftmost match: eleven characters of the class
    [[a-zA-Z0-9_-]], found between the marker and a closing quote at a
    position before which the pattern matches nowhere. *)
Theorem getYoutubeId_first_match (searchQuery html : string) (env : Env) (i : nat) :
  env (AxiosGet (search_url searchQuery)) = Fulfilled (JString html) →
  has_videoId html →
  ∃ tok j post,
    outcome (step env i (getYoutubeId searchQuery))
      = Some (Fulfilled (JString (string_of_list_ascii tok))) ∧
    length tok = 11 ∧ Forall (λ c, is_id_char c = true) tok ∧
    drop j (list_ascii_of_string html) = marker ++ tok ++ dquote :: post ∧
    ∀ j', j' < j → match_here (drop j' (list_ascii_of_string html)) = None.
Proof.
  intros Henv Hhas.
  destruct (regex_exec (list_ascii_of_string html)) as [tok|] eqn:Hr.
  2:{ exfalso. revert Hhas. apply match_videoId_None. unfold match_videoId. by rewrite Hr. }
  destruct (regex_exec_leftmost _ _ Hr) as (j & Hj & Hbefore).
  apply match_here_Some in Hj as (post & Hpost & Hlen & Hall).
  exists tok, j, post. split_and!; try done.
  unfold step. simpl. rewrite Henv. simpl. unfold match_videoId. by rewrite Hr.
Qed.

Lemma page_with_id_has_videoId : has_videoId page_with_id.
Proof.
  exists (list_ascii_of_string "<script>var ytInitialData = {"),
    (list_ascii_of_string "dQw4w9WgXcQ"), (list_ascii_of_string "};</script>").
  split_and!; [done..|]. by repeat constructor.
Qed.

Lemma getYoutubeId_first_match_witness :
  ∃ tok j post,
    outcome (step online 0 (getYoutubeId "Heat trailer"))
      = Some (Fulfilled (JString (string_of_list_ascii tok))) ∧
    length tok = 11 ∧ Forall (λ c, is_id_char c = true) tok ∧
    drop j (list_ascii_of_string page_with_id) = marker ++ tok ++ dquote :: post ∧
    ∀ j', j' < j → match_here (drop j' (list_ascii_of_string page_with_id)) = None.
Proof.
  apply (getYoutubeId_first_match "Heat trailer" page_with_id online 0).
  - reflexivity.
  - exact page_with_id_has_videoId.
Defined.

(** ** The search URL *)



Lemma list_ascii_of_string_app s1 s2 :
  list_ascii_of_string (s1 +:+ s2) = list_ascii_of_string s1 ++ list_ascii_of_string s2.
Proof. induction s1 as [|c s1 IH]; simpl; [done|]. by rewrite IH. Qed.


(** The inverse of [percent_encode], for the proof that the encoding loses
    nothing. *)
Definition unhex (c : ascii) : nat :=
  if nat_of_ascii c <? 58 then nat_of_ascii c - 48 else nat_of_ascii c - 55.

Fixpoint percent_decode (l : list ascii) : list ascii :=
  match l with
  | [] => []
  | c :: rest =>
      if bool_decide (c = "%"%char) then
        match rest with
        | h :: lo :: rest' => ascii_of_nat (16 * unhex h + unhex lo) :: percent_decode rest'
        | _ => c :: percent_decode rest
        end
      else c :: percent_decode rest
  end.

Lemma percent_decode_encode c rest :
  percent_decode (percent_encode c ++ rest) = c :: percent_decode rest.
Proof. destruct c as [[] [] [] [] [] [] [] []]; reflexivity. Qed.

Lemma percent_decode_encode_all l : percent_decode (l ≫= percent_encode) = l.
Proof.
  induction l as [|c l IH]; [done|].
  change ((c :: l) ≫= percent_encode) with (percent_encode c ++ (l ≫= percent_encode)).
  by rewrite percent_decode_encode, IH.
Qed.

Lemma encodeURIComponent_inj s1 s2 :
  encodeURIComponent s1 = encodeURIComponent s2 → s1 = s2.
Proof.
  unfold encodeURIComponent. intros H.
  apply (f_equal list_ascii_of_string) in H.
  rewrite !list_ascii_of_string_of_list_ascii in H.
  apply (f_equal percent_decode) in H. rewrite !percent_decode_encode_all in H.
  apply (f_equal string_of_list_ascii) in H.
  by rewrite !string_of_list_ascii_of_string in H.
Qed.

Lemma string_app_inj_l p s1 s2 : p +:+ s1 = p +:+ s2 → s1 = s2.
Proof. induction p as [|c p IH]; simpl; [done|]. intros [= H]. by apply IH. Qed.

Lemma string_app_inj_r s1 s2 p : s1 +:+ p = s2 +:+ p → s1 = s2.
Proof.
  intros H. apply (f_equal list_ascii_of_string) in H.
  rewrite !list_ascii_of_string_app in H. apply app_inv_tail in H.
  apply (f_equal string_of_list_ascii) in H.
  by rewrite !string_of_list_ascii_of_string in H.
Qed.

(** X3. The encoding of the query loses nothing: movies with different
    titles are looked up with different search URLs. *)
Theorem trailer_request_inj (movie1 movie2 : CatalogRecord) :
  title movie1 ≠ title movie2 → trailer_request movie1 ≠ trailer_request movie2.
Proof.
  intros Hne [= H]. apply Hne. unfold search_url in H.
  apply string_app_inj_l, encodeURIComponent_inj in H.
  by apply string_app_inj_r in H.
Qed.

Definition sample_sequel : CatalogRecord :=
  {| id := 950; title := "Heat 2"; release_date := "2026-01-01";
     vote_average := 0 # 1; backdrop_path := "/heat2.jpg" |}.

Lemma trailer_request_inj_witness :
  trailer_request (sample_movie 949) ≠ trailer_request sample_sequel.
Proof. apply (trailer_request_inj (sample_movie 949) sample_sequel). discriminate. Defined.

(** ** The enriched object *)

Definition enriched_keys : gset string :=
  {[ "id"; "title"; "release_date"; "vote_average"; "backdrop_path";
     "youtubeId"; "streamingProvider" ]}.

Lemma enriched_dom movie y sp : dom (enriched movie y sp) = enriched_keys.
Proof.
  unfold enriched, extractMovieInfo, enriched_keys.
  rewrite !dom_insert_L, dom_empty_L. set_solver.
Qed.

(** X4. An enriched movie has the seven keys of the object literal and no
    other: whatever else the catalog record holds is not passed on; the
    five display fields are copies of the record's. *)
Theorem enriched_movie_shape (movie : CatalogRecord) (sched : Schedule)
    (obj : EnrichedMovie) :
  outcome (run sched (buildMovieObject movie)) = Some (Fulfilled obj) →
  dom obj = enriched_keys ∧
  obj !! "title" = Some (JString (title movie)) ∧
  obj !! "release_date" = Some (JString (release_date movie)) ∧
  obj !! "vote_average" = Some (JNumber (vote_average movie)) ∧
  obj !! "backdrop_path" = Some (JString (backdrop_path movie)).
Proof.
  intros (?&?&?&?&?&html&sp&_&_&_&->)%buildMovieObject_run.
  split; [apply enriched_dom|]. by split_and!.
Qed.

Lemma enriched_movie_shape_witness :
  dom (enriched (sample_movie 949) (JString "dQw4w9WgXcQ") (JString "Netflix"))
    = enriched_keys ∧
  enriched (sample_movie 949) (JString "dQw4w9WgXcQ") (JString "Netflix") !! "title"
    = Some (JString (title (sample_movie 949))) ∧
  enriched (sample_movie 949) (JString "dQw4w9WgXcQ") (JString "Netflix") !! "release_date"
    = Some (JString (release_date (sample_movie 949))) ∧
  enriched (sample_movie 949) (JString "dQw4w9WgXcQ") (JString "Netflix") !! "vote_average"
    = Some (JNumber (vote_average (sample_movie 949))) ∧
  enriched (sample_movie 949) (JString "dQw4w9WgXcQ") (JString "Netflix") !! "backdrop_path"
    = Some (JString (backdrop_path (sample_movie 949))).
Proof.
  apply (enriched_movie_shape (sample_movie 949) [(0, online); (0, online)]).
  reflexivity.
Defined.

(** What the two answers [env1] and [env2] make of [movie]. *)
Definition enrich_with (env1 env2 : Env) (movie : CatalogRecord)
  : Settled EnrichedMovie :=
  match env1 (trailer_request movie) with
  | Rejected e => Rejected e
  | Fulfilled html =>
      match resolved html with
      | Rejected e => Rejected e
      | Fulfilled youtubeId =>
          match env2 (provider_request movie) with
          | Rejected e => Rejected e
          | Fulfilled sp => Fulfilled (enriched movie youtubeId sp)
          end
      end
  end.

(** X5. An enrichment is decided by the first two answers: it is rejected
    with the error of the trailer request when that fails, with a
    [TypeError] when the request succeeds with a page that is not text
    (both already after one answer), with the error of the provider lookup
    when that fails even though the page was read, and fulfilled otherwise;
    the scheduler's choices and later answers change nothing. *)
Theorem buildMovieObject_outcome (movie : CatalogRecord) (i1 i2 : nat)
    (env1 env2 : Env) (rest : Schedule) :
  outcome (run ((i1, env1) :: (i2, env2) :: rest) (buildMovieObject movie))
    = Some (enrich_with env1 env2 movie) ∧
  outcome (run [(i1, env1)] (buildMovieObject movie))
    = match env1 (trailer_request movie) with
      | Rejected e => Some (Rejected e)
      | Fulfilled html =>
          match html_match html with
          | Rejected e => Some (Rejected e)
          | Fulfilled _ => None
          end
      end.
Proof.
  unfold enrich_with. split.
  - change (run ((i1, env1) :: (i2, env2) :: rest) (buildMovieObject movie))
      with (run ((i2, env2) :: rest) (step env1 i1 (buildMovieObject movie))).
    rewrite buildMovieObject_step.
    destruct (env1 (trailer_request movie)) as [html|e].
    2:{ by rewrite (run_settled _ _ (Rejected e)). }
    destruct (resolved html) as [y|e].
    2:{ by rewrite (run_settled _ _ (Rejected e)). }
    change (run ((i2, env2) :: rest) (awaiting_provider movie y))
      with (run rest (step env2 i2 (awaiting_provider movie y))).
    rewrite awaiting_provider_step.
    destruct (env2 (provider_request movie)) as [sp|e].
    + by rewrite (run_settled _ _ (Fulfilled (enriched movie y sp))).
    + by rewrite (run_settled _ _ (Rejected e)).
  - change (run [(i1, env1)] (buildMovieObject movie))
      with (step env1 i1 (buildMovieObject movie)).
    rewrite buildMovieObject_step.
    destruct (env1 (trailer_request movie)) as [html|e]; [|done].
    unfold resolved. by destruct (html_match html) as [[videoId|]|e].
Qed.

(** ** Lookups by id and by title *)

Lemma createMovieObjectFromName_step env i name :
  step env i (createMovieObjectFromName name) =
  match env (GetMovieByTitle name) with
  | Fulfilled movie => buildMovieObject movie
  | Rejected e => Throw e
  end.
Proof.
  unfold step. cbn [createMovieObjectFromName bind call settle].
  by destruct (env (GetMovieByTitle name)).
Qed.

Lemma createMovieObjectFromID_step env i tmdbId :
  step env i (createMovieObjectFromID tmdbId) =
  match env (GetMovieById tmdbId) with
  | Fulfilled movie => buildMovieObject movie
  | Rejected e => Throw e
  end.
Proof.
  unfold step. cbn [createMovieObjectFromID bind call settle].
  by destruct (env (GetMovieById tmdbId)).
Qed.

(** X6. [createMovieObjectFromName] asks the catalog first and nothing else
    until it has the record; a failed lookup rejects the call with no
    trailer or provider request made; the object describes the record the
    catalog returned, with the catalog's id and title, which need not be
    the name that was asked for. *)
Theorem createMovieObjectFromName_result (name : string) (sched : Schedule)
    (obj : EnrichedMovie) :
  outcome (run sched (createMovieObjectFromName name)) = Some (Fulfilled obj) →
  pending (createMovieObjectFromName name) = [GetMovieByTitle name] ∧
  (∀ i env e, env (GetMovieByTitle name) = Rejected e →
              step env i (createMovieObjectFromName name) = Throw e) ∧
  ∃ i env rest movie,
    sched = (i, env) :: rest ∧
    env (GetMovieByTitle name) = Fulfilled movie ∧
    obj !! "id" = Some (JNumber (inject_Z (id movie))) ∧
    obj !! "title" = Some (JString (title movie)).
Proof.
  intros Hobj. split; [done|]. split.
  { intros i env e He. by rewrite createMovieObjectFromName_step, He. }
  destruct sched as [|[i env] rest]; [done|].
  change (run ((i, env) :: rest) (createMovieObjectFromName name))
    with (run rest (step env i (createMovieObjectFromName name))) in Hobj.
  rewrite createMovieObjectFromName_step in Hobj.
  destruct (env (GetMovieByTitle name)) as [movie|e] eqn:Hm.
  2:{ by rewrite (run_settled _ _ (Rejected e)) in Hobj. }
  apply buildMovieObject_run in Hobj as (?&?&?&?&?&html&sp&_&_&_&->).
  by exists i, env, rest, movie.
Qed.

Lemma createMovieObjectFromName_result_witness :
  pending (createMovieObjectFromName "heat") = [GetMovieByTitle "heat"] ∧
  (∀ i env e, env (GetMovieByTitle "heat") = Rejected e →
              step env i (createMovieObjectFromName "heat") = Throw e) ∧
  ∃ i env rest movie,
    replicate 3 (0, online) = (i, env) :: rest ∧
    env (GetMovieByTitle "heat") = Fulfilled movie ∧
    enriched (sample_movie 1) (JString "dQw4w9WgXcQ") (JString "Netflix") !! "id"
      = Some (JNumber (inject_Z (id movie))) ∧
    enriched (sample_movie 1) (JString "dQw4w9WgXcQ") (JString "Netflix") !! "title"
      = Some (JString (title movie)).
Proof.
  apply (createMovieObjectFromName_result "heat" (replicate 3 (0, online))).
  reflexivity.
Defined.

(** ** Samples as sub-multisets *)

Lemma getRandomItems_submseteq {A : Type} E tape (pool : list A) count n :
  (getRandomItems E tape pool count n).1 ⊆+ pool.
Proof.
  destruct (getRandomItems_prefix E tape pool count n) as (l & Hl & ->).
  rewrite <- Hl. apply sublist_submseteq, sublist_take.
Qed.

Lemma NoDup_of_submseteq {A : Type} (l k : list A) : l ⊆+ k → NoDup k → NoDup l.
Proof.
  intros [k' Hk]%submseteq_Permutation Hnd. rewrite Hk in Hnd.
  by apply NoDup_app in Hnd as [? _].
Qed.

(** X7. A sample holds an item at most as often as its pool does: from a
    pool without repetitions no item is drawn twice, and a sample of zero
    items is empty. *)
Theorem getRandomItems_no_repeat {A : Type} (E : SortEngine) (tape : nat → Q)
    (pool : list A) (count n : nat) :
  NoDup pool →
  NoDup (getRandomItems E tape pool count n).1 ∧
  (getRandomItems E tape pool count n).1 ⊆+ pool ∧
  (getRandomItems E tape pool 0 n).1 = [].
Proof.
  intros Hnd. split_and!.
  - eapply NoDup_of_submseteq; [apply getRandomItems_submseteq|done].
  - apply getRandomItems_submseteq.
  - apply nil_length_inv. by rewrite getRandomItems_length.
Qed.

Lemma getRandomItems_no_repeat_witness :
  NoDup (getRandomItems insertion_sort sample_tape [1; 2; 3; 4; 5]%Z 3 0).1 ∧
  (getRandomItems insertion_sort sample_tape [1; 2; 3; 4; 5]%Z 3 0).1
    ⊆+ [1; 2; 3; 4; 5]%Z ∧
  (getRandomItems insertion_sort sample_tape [1; 2; 3; 4; 5]%Z 0 0).1 = [].
Proof.
  apply (getRandomItems_no_repeat insertion_sort sample_tape [1; 2; 3; 4; 5]%Z 3 0).
  refine (bool_decide_unpack _ _). vm_compute. exact I.
Defined.

(** X8. The movies of the landing page are a sample of the trending pool
    and a sample of the top-rated pool, mixed: as a multiset the selection
    is the two samples together, each a sub-multiset of its pool of the
    size the pool allows.  Nothing removes a movie that is in both pools:
    when the pools are no longer than the sample counts the selection holds
    every item of both, a movie of both pools twice; the ids of the
    selection are distinct when the ids of the two pools together are. *)
Theorem landing_selection_split (E : SortEngine) (tape : nat → Q)
    (trending topRated : list CatalogRecord) :
  (∃ trendingSample topRatedSample,
     landing_selection E tape trending topRated ≡ₚ trendingSample ++ topRatedSample ∧
     trendingSample ⊆+ trending ∧ length trendingSample = 8 `min` length trending ∧
     topRatedSample ⊆+ topRated ∧ length topRatedSample = 2 `min` length topRated) ∧
  (length trending ≤ 8 → length topRated ≤ 2 →
   landing_selection E tape trending topRated ≡ₚ trending ++ topRated) ∧
  (NoDup (map id (trending ++ topRated)) →
   NoDup (map id (landing_selection E tape trending topRated))).
Proof.
  destruct (landing_selection_samples E tape trending topRated) as (n1 & Hsel).
  split_and!.
  - eexists _, _. split; [exact Hsel|].
    split_and!; auto using getRandomItems_submseteq, getRandomItems_length.
  - intros H8 H2. rewrite Hsel. by rewrite !getRandomItems_short.
  - intros Hnd. eapply NoDup_of_submseteq; [|exact Hnd]. rewrite Hsel.
    apply (fmap_submseteq id), submseteq_app; apply getRandomItems_submseteq.
Qed.

(** One movie in both pools is on the landing page twice. *)
Lemma landing_selection_split_witness :
  landing_selection insertion_sort sample_tape [sample_movie 1] [sample_movie 1]
    ≡ₚ [sample_movie 1] ++ [sample_movie 1].
Proof.
  apply (proj1 (proj2 (landing_selection_split insertion_sort sample_tape
                         [sample_movie 1] [sample_movie 1]))); simpl; lia.
Defined.

(** ** The fan-out of the landing page *)

Lemma first_rejection_build movies : first_rejection (map buildMovieObject movies) = None.
Proof. induction movies as [|m movies IH]; [done|]. exact IH. Qed.

Lemma pending_build_batch movies :
  pending (await_all (map buildMovieObject movies) Return) = map trailer_request movies.
Proof.
  unfold await_all. rewrite first_rejection_build.
  destruct movies as [|m movies]; [done|].
  change (all_fulfilled (map buildMovieObject (m :: movies))) with (@None (list EnrichedMovie)).
  cbn [pending]. induction (m :: movies) as [|m' l IH]; [done|].
  cbn [map concat]. rewrite IH. by rewrite buildMovieObject_pending.
Qed.

(** X9. The enrichments of the landing page start together: once the two
    pools have arrived, the trailer lookups of all selected movies are
    outstanding at the same time, in the order of the selection, before any
    of them is answered. *)
Theorem landingPageMovies_fan_out (E : SortEngine) (tape : nat → Q)
    (i1 i2 : nat) (env1 env2 : Env) (trending topRated : list CatalogRecord) :
  env1 GetTrendingMovies = Fulfilled trending →
  env2 GetTopRatedMovies = Fulfilled topRated →
  pending (run [(i1, env1); (i2, env2)] (landingPageMovies E tape))
    = map trailer_request (landing_selection E tape trending topRated) ∧
  length (pending (run [(i1, env1); (i2, env2)] (landingPageMovies E tape)))
    = 8 `min` length trending + 2 `min` length topRated.
Proof.
  intros H1 H2.
  assert (run [(i1, env1); (i2, env2)] (landingPageMovies E tape)
          = landing_batch E tape trending topRated) as ->
    by exact (landingPageMovies_steps E tape [] i1 env1 i2 env2 trending topRated H1 H2).
  unfold landing_batch. rewrite pending_build_batch. split; [done|].
  by rewrite length_map, landing_selection_length.
Qed.

Lemma landingPageMovies_fan_out_witness :
  pending (run [(0, online); (0, online)] (landingPageMovies insertion_sort sample_tape))
    = map trailer_request
        (landing_selection insertion_sort sample_tape
           (map sample_movie [1; 2; 3; 4; 5; 6; 7; 8; 9; 10]%Z)
           (map sample_movie [11; 12]%Z)) ∧
  length (pending (run [(0, online); (0, online)]
                     (landingPageMovies insertion_sort sample_tape)))
    = 8 `min` length (map sample_movie [1; 2; 3; 4; 5; 6; 7; 8; 9; 10]%Z)
      + 2 `min` length (map sample_movie [11; 12]%Z).
Proof.
  apply (landingPageMovies_fan_out insertion_sort sample_tape 0 0 online online);
    reflexivity.
Defined.

(** X10. The two pools are fetched one after the other: the top-rated pool
    is asked for only when the trending pool has arrived, and a failed
    fetch of the trending pool rejects the call with nothing else asked. *)
Theorem landingPageMovies_fetch_order (E : SortEngine) (tape : nat → Q)
    (env : Env) (i : nat) :
  pending (landingPageMovies E tape) = [GetTrendingMovies] ∧
  pending (step env i (landingPageMovies E tape))
    = match env GetTrendingMovies with
      | Fulfilled _ => [GetTopRatedMovies]
      | Rejected _ => []
      end ∧
  outcome (step env i (landingPageMovies E tape))
    = match env GetTrendingMovies with
      | Fulfilled _ => None
      | Rejected e => Some (Rejected e)
      end.
Proof.
  split; [done|]. rewrite landingPageMovies_step.
  by destruct (env GetTrendingMovies).
Qed.

(** X11. With two empty pools the landing page is an empty list, returned
    after the two fetches with no other call made. *)
Theorem landingPageMovies_empty_pools (E : SortEngine) (tape : nat → Q)
    (i1 i2 : nat) (env1 env2 : Env) (rest : Schedule) :
  env1 GetTrendingMovies = Fulfilled [] →
  env2 GetTopRatedMovies = Fulfilled [] →
  outcome (run ((i1, env1) :: (i2, env2) :: rest) (landingPageMovies E tape))
    = Some (Fulfilled []).
Proof.
  intros H1 H2.
  assert (run ((i1, env1) :: (i2, env2) :: rest) (landingPageMovies E tape)
          = run rest (landing_batch E tape [] [])) as ->
    by exact (landingPageMovies_steps E tape rest i1 env1 i2 env2 [] [] H1 H2).
  unfold landing_batch.
  rewrite (nil_length_inv (landing_selection E tape [] [])).
  - by rewrite (run_settled _ _ (Fulfilled [])).
  - by rewrite landing_selection_length.
Qed.

Definition no_movies : Env := λ q,
  match q as q' return Settled (Resp q') with
  | GetTrendingMovies | GetTopRatedMovies => Fulfilled []
  | q' => online q'
  end.

Lemma landingPageMovies_empty_pools_witness :
  outcome (run ((0, no_movies) :: (0, no_movies) :: [(0, online)])
             (landingPageMovies insertion_sort sample_tape))
    = Some (Fulfilled []).
Proof.
  apply (landingPageMovies_empty_pools insertion_sort sample_tape 0 0 no_movies no_movies);
    reflexivity.
Defined.

(** ** The order of the answers and the result *)

Lemma buildMovieObject_Settles_fixed env movie :
  Settles (eq env) (eq (enrich_with env env movie)) 2 (buildMovieObject movie).
Proof.
  unfold enrich_with.
  apply Settles_S; [done..|]. intros i ? <-. rewrite buildMovieObject_step.
  destruct (env (trailer_request movie)) as [html|e]; [|done].
  destruct (resolved html) as [y|e]; [|done].
  apply Settles_S; [done..|]. intros i' ? <-. rewrite awaiting_provider_step.
  by destruct (env (provider_request movie)).
Qed.

(** What the landing page returns when every call is answered by [env]. *)
Definition landing_result (env : Env) (E : SortEngine) (tape : nat → Q)
    (res : list EnrichedMovie) : Prop :=
  ∃ trending topRated,
    env GetTrendingMovies = Fulfilled trending ∧
    env GetTopRatedMovies = Fulfilled topRated ∧
    Forall2 (λ movie obj, enrich_with env env movie = Fulfilled obj)
      (landing_selection E tape trending topRated) res.

Lemma landing_result_unique env E tape res1 res2 :
  landing_result env E tape res1 → landing_result env E tape res2 → res1 = res2.
Proof.
  intros (tr1 & top1 & Ht1 & Hp1 & H1) (tr2 & top2 & Ht2 & Hp2 & H2).
  rewrite Ht1 in Ht2. rewrite Hp1 in Hp2. injection Ht2 as <-. injection Hp2 as <-.
  revert res2 H2. induction H1 as [|m obj ms res Hm _ IH]; intros res2 H2.
  - by inversion H2.
  - inversion H2 as [|m' obj' ms' res' Hm' Hrest]; subst.
    rewrite Hm in Hm'. injection Hm' as <-. f_equal. by apply IH.
Qed.

Lemma landingPageMovies_Settles_fixed env E tape :
  Settles (eq env)
    (λ r, ∀ res, r = Fulfilled res → landing_result env E tape res)
    22 (landingPageMovies E tape).
Proof.
  apply Settles_S; [done..|]. intros i1 ? <-. rewrite landingPageMovies_step.
  destruct (env GetTrendingMovies) as [trending|e] eqn:Htr; [|done].
  apply Settles_S; [done..|]. intros i2 ? <-. rewrite awaiting_topRated_step.
  destruct (env GetTopRatedMovies) as [topRated|e] eqn:Htop; [|done].
  unfold landing_batch. eapply Settles_mono, Settles_weaken; last first.
  - apply (batch_Settles _ buildMovieObject (λ m, eq (enrich_with env env m)) 2).
    intros m _. apply buildMovieObject_Settles_fixed.
  - intros r Hr res ->. by exists trending, topRated.
  - rewrite landing_selection_length. lia.
Qed.

(** X12. The landing page does not depend on the order in which the calls
    are answered: when every call has one answer, two runs that return
    return the same list, the enrichments of the selected movies in the
    order of the selection, not in the order of completion. *)
Theorem landingPageMovies_order_independent (E : SortEngine) (tape : nat → Q)
    (env : Env) (sched1 sched2 : Schedule) (res1 res2 : list EnrichedMovie) :
  answers (eq env) sched1 → answers (eq env) sched2 →
  outcome (run sched1 (landingPageMovies E tape)) = Some (Fulfilled res1) →
  outcome (run sched2 (landingPageMovies E tape)) = Some (Fulfilled res2) →
  res1 = res2 ∧ landing_result env E tape res1.
Proof.
  intros Hs1 Hs2 Hr1 Hr2.
  pose proof (Settles_sound _ _ _ _ _ _ (landingPageMovies_Settles_fixed env E tape)
                Hs1 Hr1 res1 eq_refl) as H1.
  pose proof (Settles_sound _ _ _ _ _ _ (landingPageMovies_Settles_fixed env E tape)
                Hs2 Hr2 res2 eq_refl) as H2.
  split; [|done]. by eapply landing_result_unique.
Qed.

(** Two orders of answering the same calls. *)
Definition first_come : Schedule := replicate 22 (0, online).

Definition last_come : Schedule :=
  map (λ i, (i, online)) [0; 0; 9; 8; 7; 6; 5; 4; 3; 2; 1; 0; 9; 8; 7; 6; 5; 4; 3; 2; 1; 0].

Definition sample_landing_page : list EnrichedMovie :=
  map (λ movie, enriched movie (JString "dQw4w9WgXcQ") (JString "Netflix"))
    (landing_selection insertion_sort sample_tape
       (map sample_movie [1; 2; 3; 4; 5; 6; 7; 8; 9; 10]%Z)
       (map sample_movie [11; 12]%Z)).

Lemma landingPageMovies_order_independent_witness :
  sample_landing_page = sample_landing_page ∧
  landing_result online insertion_sort sample_tape sample_landing_page.
Proof.
  apply (landingPageMovies_order_independent insertion_sort sample_tape online
           first_come last_come).
  - by apply Forall_replicate.
  - apply Forall_forall. by intros ? (? & -> & _)%list_elem_of_fmap.
  - reflexivity.
  - reflexivity.
Defined.

(** ** The sampling of popular movies *)

Lemma first_rejection_lookup ids :
  first_rejection (map createMovieObjectFromID ids) = None.
Proof. induction ids as [|n ids IH]; [done|]. exact IH. Qed.

Lemma pending_lookup_batch ids :
  pending (await_all (map createMovieObjectFromID ids) Return) = map GetMovieById ids.
Proof.
  unfold await_all. rewrite first_rejection_lookup.
  destruct ids as [|n ids]; [done|].
  change (all_fulfilled (map createMovieObjectFromID (n :: ids)))
    with (@None (list EnrichedMovie)).
  cbn [pending]. induction (n :: ids) as [|n' l IH]; [done|].
  cbn [map concat]. by rewrite IH.
Qed.

Lemma top_rows_submseteq st rows : movies st = Some rows → top_rows st ⊆+ rows.
Proof.
  intros Hrows. unfold top_rows. rewrite Hrows.
  rewrite <- (merge_sort_Permutation by_popularity_desc rows) at 2.
  apply sublist_submseteq, sublist_take.
Qed.

Lemma random_ids_submseteq E tape st rows :
  movies st = Some rows → random_ids E tape st ⊆+ map row_id rows.
Proof.
  intros Hrows. unfold random_ids, eval_rand.
  apply (fmap_submseteq row_id). etrans; [apply sublist_submseteq, sublist_take|].
  rewrite (Array_sort_permutes E (random_comparator tape) (top_rows st) 0).
  by apply top_rows_submseteq.
Qed.

Lemma random_ids_length_rows E tape st rows :
  movies st = Some rows → length (random_ids E tape st) = 10 `min` length rows.
Proof.
  intros Hrows. unfold random_ids, eval_rand.
  rewrite length_map, length_take,
    (Array_sort_permutes E (random_comparator tape) (top_rows st) 0).
  unfold top_rows. rewrite Hrows, length_take,
    (merge_sort_Permutation by_popularity_desc rows). lia.
Qed.

(** X13. When the store opens and the query returns, [getRandomPopularMovies]
    leaves the store as it found it and looks up [min 10 |rows|] ids of the
    table, all at once; an id is looked up at most as often as the table
    holds it, so the ids are distinct when those of the table are. *)
Theorem getRandomPopularMovies_lookups (E : SortEngine) (tape : nat → Q)
    (st : Store) (rows : list PopularityRow) :
  can_open st = true → movies st = Some rows →
  (getRandomPopularMovies E tape st).1 = st ∧
  pending (getRandomPopularMovies E tape st).2
    = map GetMovieById (random_ids E tape st) ∧
  length (random_ids E tape st) = 10 `min` length rows ∧
  random_ids E tape st ⊆+ map row_id rows ∧
  (NoDup (map row_id rows) → NoDup (random_ids E tape st)).
Proof.
  intros Hopen Hrows. rewrite (getRandomPopularMovies_close E tape st rows) by done.
  split_and!; [done|apply pending_lookup_batch|by apply random_ids_length_rows
              |by apply random_ids_submseteq|].
  intros Hnd. eapply NoDup_of_submseteq; [|exact Hnd].
    by apply random_ids_submseteq.
Qed.

Lemma getRandomPopularMovies_lookups_witness :
  (getRandomPopularMovies insertion_sort sample_tape sample_store).1 = sample_store ∧
  pending (getRandomPopularMovies insertion_sort sample_tape sample_store).2
    = map GetMovieById (random_ids insertion_sort sample_tape sample_store) ∧
  length (random_ids insertion_sort sample_tape sample_store) = 10 `min` 3 ∧
  random_ids insertion_sort sample_tape sample_store ⊆+ [11; 12; 13]%Z ∧
  (NoDup [11; 12; 13]%Z → NoDup (random_ids insertion_sort sample_tape sample_store)).
Proof.
  apply (getRandomPopularMovies_lookups insertion_sort sample_tape sample_store
           (default [] (movies sample_store))); reflexivity.
Defined.

(** X14. From an empty table [getRandomPopularMovies] returns the empty
    list at once: no call to the catalog or to the scraper is made, and the
    connection has been closed. *)
Theorem getRandomPopularMovies_empty_table (E : SortEngine) (tape : nat → Q)
    (st : Store) :
  can_open st = true → movies st = Some [] →
  getRandomPopularMovies E tape st = (st, Return []).
Proof.
  intros Hopen Hrows. rewrite (getRandomPopularMovies_close E tape st []) by done.
  by rewrite (nil_length_inv _ (random_ids_length_rows E tape st [] Hrows)).
Qed.

Definition empty_store : Store :=
  {| movies := Some []; can_open := true; open_connections := 2 |}.

Lemma getRandomPopularMovies_empty_table_witness :
  getRandomPopularMovies insertion_sort sample_tape empty_store = (empty_store, Return []).
Proof.
  apply (getRandomPopularMovies_empty_table insertion_sort sample_tape empty_store);
    reflexivity.
Defined.

(** X15. The table is only read, and the call leaves the store as it found
    it except on one path: the file opened and the query threw.  When the
    file does not open the call is rejected with nothing acquired. *)
Theorem getRandomPopularMovies_store (E : SortEngine) (tape : nat → Q) (st : Store) :
  movies (getRandomPopularMovies E tape st).1 = movies st ∧
  can_open (getRandomPopularMovies E tape st).1 = can_open st ∧
  ((getRandomPopularMovies E tape st).1 = st ↔
   ¬ (can_open st = true ∧ movies st = None)) ∧
  (can_open st = false →
   ∃ e, getRandomPopularMovies E tape st = (st, Throw e)).
Proof.
  unfold getRandomPopularMovies, new_Database, select_top_1000.
  destruct st as [[rows|] [] n]; simpl; split_and!; try done; eauto.
  - split; [by intros _ [_ ?]|done].
  - split; [by intros _ [? _]|done].
  - split; [intros [=]; lia|]. by intros [].
  - split; [by intros _ [? _]|done].
Qed.

Lemma wf_createMovieObjectFromID tmdbId : wf (createMovieObjectFromID tmdbId).
Proof.
  simpl. intros movie html. by destruct (html_match html) as [[videoId|]|e].
Qed.

Lemma wf_getRandomPopularMovies E tape st : wf (getRandomPopularMovies E tape st).2.
Proof.
  destruct (getRandomPopularMovies_promise E tape st) as [[e ->]| ->]; [done|].
  apply (wf_batch createMovieObjectFromID), wf_createMovieObjectFromID.
Qed.

(** X16. The popular movies fail as a whole too: as soon as one lookup,
    trailer request or provider request of the batch is answered with a
    rejection the call is rejected with that error, and nothing is
    returned for the movies that were already enriched; the connection to
    the store was closed before the first request. *)
Theorem getRandomPopularMovies_fails_whole_batch (E : SortEngine) (tape : nat → Q)
    (st : Store) (before after : Schedule) (i : nat) (env : Env) (q : Request)
    (e : Error) :
  pending (run before (getRandomPopularMovies E tape st).2)
    !! (i mod length (pending (run before (getRandomPopularMovies E tape st).2)))
    = Some q →
  env q = Rejected e →
  outcome (run (before ++ (i, env) :: after) (getRandomPopularMovies E tape st).2)
    = Some (Rejected e) ∧
  open_connections (getRandomPopularMovies E tape st).1 = open_connections st.
Proof.
  intros Hq He. split.
  - unfold run. rewrite foldl_app. simpl.
    fold (run before (getRandomPopularMovies E tape st).2).
    erewrite step_rejected; [|apply wf_run, wf_getRandomPopularMovies|exact Hq|exact He].
    fold (run after (Throw (R := list EnrichedMovie) e)).
    by rewrite (run_settled _ _ (Rejected e)).
  - revert Hq. unfold getRandomPopularMovies, new_Database, select_top_1000.
    destruct (can_open st); simpl.
    2:{ by rewrite (run_settled _ _ (Rejected (SqliteError "unable to open database file"))). }
    destruct (movies st); simpl; [done|].
    by rewrite (run_settled _ _ (Rejected (SqliteError "no such table: movies"))).
Qed.

Lemma getRandomPopularMovies_fails_whole_batch_witness :
  outcome (run (replicate 4 (0, online) ++ (1, offline) :: [(0, online)])
             (getRandomPopularMovies insertion_sort sample_tape sample_store).2)
    = Some (Rejected (NetworkError "ECONNRESET")) ∧
  open_connections (getRandomPopularMovies insertion_sort sample_tape sample_store).1
    = open_connections sample_store.
Proof.
  apply (getRandomPopularMovies_fails_whole_batch insertion_sort sample_tape sample_store
           (replicate 4 (0, online)) [(0, online)] 1 offline (GetMovieById 13)).
  - vm_compute. reflexivity.
  - reflexivity.
Defined.

(** ** The CORS policy of the server *)

(** What the [origin] function of the CORS options passes to its callback:
    [callback(null, true)] or [callback(new Error(message))]. *)
Inductive CorsDecision : Type :=
| Allowed
| NotAllowed (message : string).

Definition allowedOrigins : list string :=
  [ "http://localhost:5173";
    "https://coralwindow.ca";
    "https://gleb-zvonkov.github.io";
    "http://thecine.ca";
    "https://thecine.ca" ].

(** [!origin]: the header is missing or empty. *)
Definition falsy (origin : option string) : bool :=
  match origin with
  | None => true
  | Some o => bool_decide (o = EmptyString)
  end.

Definition includes (origins : list string) (origin : option string) : bool :=
  match origin with
  | None => false
  | Some o => bool_decide (o ∈ origins)
  end.

Definition cors_origin (origin : option string) : CorsDecision :=
  if falsy origin || includes allowedOrigins origin then Allowed
  else NotAllowed "Not allowed by CORS".

Lemma string_app_nil_r (s : string) : s +:+ EmptyString = s.
Proof.
  induction s as [|c s IH]; [done|].
  change (String c (s +:+ EmptyString) = String c s). by rewrite IH.
Qed.

Lemma string_app_nil_inv (s suffix : string) : s +:+ suffix = s → suffix = EmptyString.
Proof.
  intros H. apply (string_app_inj_l s). by rewrite H, string_app_nil_r.
Qed.

Lemma allowedOrigins_prefix_free o o' suffix :
  o ∈ allowedOrigins → o' ∈ allowedOrigins → o +:+ suffix = o' → suffix = EmptyString.
Proof.
  unfold allowedOrigins. intros Ho Ho' Heq.
  apply list_elem_of_In in Ho, Ho'.
  destruct Ho as [<-|[<-|[<-|[<-|[<-|[]]]]]];
    destruct Ho' as [<-|[<-|[<-|[<-|[<-|[]]]]]];
    first [by apply string_app_nil_inv in Heq | by simplify_eq/=].
Qed.

(** X17. The CORS policy compares whole origins: a request is let through
    when it carries no origin or one of the five listed origins, and an
    origin that only begins with a listed one (a listed origin followed by
    a port, a path or another domain suffix) is refused. *)
Theorem cors_origin_exact (o suffix : string) :
  o ∈ allowedOrigins → suffix ≠ EmptyString →
  cors_origin (Some o) = Allowed ∧
  cors_origin None = Allowed ∧
  cors_origin (Some (o +:+ suffix)) = NotAllowed "Not allowed by CORS".
Proof.
  intros Ho Hs. unfold cors_origin. split_and!.
  - simpl. rewrite (bool_decide_true (o ∈ allowedOrigins)) by done.
    by rewrite orb_true_r.
  - done.
  - simpl. rewrite bool_decide_false, bool_decide_false; [done| |].
    + intros Hin. by apply Hs, (allowedOrigins_prefix_free o (o +:+ suffix) suffix).
    + intros Hnil. destruct o; [|done].
      apply list_elem_of_In in Ho. simpl in Ho. naive_solver.
Qed.

Lemma cors_origin_exact_witness :
  cors_origin (Some "https://thecine.ca") = Allowed ∧
  cors_origin None = Allowed ∧
  cors_origin (Some ("https://thecine.ca" +:+ ".example.org"))
    = NotAllowed "Not allowed by CORS".
Proof.
  apply (cors_origin_exact "https://thecine.ca" ".example.org").
  - apply list_elem_of_In. simpl. tauto.
  - discriminate.
Defined.
